(** * Blog-Writer: the sanitizing markdown renderer and the interaction shell

    A shallow embedding of [src/components/GeneratedPost.tsx]
    ([applyInlineFormatting], [renderContent]) and of the request guard of
    [src/App.tsx] ([handleGeneratePost]).

    JavaScript strings are sequences of UTF-16 code units; they are modelled
    as lists of code units ([N]).  The regular expressions of the source are
    kept as syntax trees and run by a backtracking matcher written in the
    continuation-passing style of the ECMAScript specification, so that
    greedy and lazy quantifiers, capture groups, anchors and look-around
    behave as they do in the source. *)

From Stdlib Require Import String Ascii.
From Stdlib Require Import List NArith Bool Arith Lia.
Import ListNotations.

Set Implicit Arguments.

(** ** JavaScript strings *)

Definition char := N.
Definition jsstring := list char.

(** A literal of the source, as code units. *)
Definition js (s : string) : jsstring :=
  map N_of_ascii (list_ascii_of_string s).

Module JsString.

(** ECMAScript WhiteSpace: TAB, VT, FF, SP, NBSP, ZWNBSP and category Zs. *)
Definition isWhiteSpace (c : char) : bool :=
  ((c =? 9) || (c =? 11) || (c =? 12) || (c =? 32) || (c =? 160)
   || (c =? 5760) || ((8192 <=? c) && (c <=? 8202)) || (c =? 8239)
   || (c =? 8287) || (c =? 12288) || (c =? 65279))%N.

(** ECMAScript LineTerminator: LF, CR, LS, PS. *)
Definition isLineTerminator (c : char) : bool :=
  ((c =? 10) || (c =? 13) || (c =? 8232) || (c =? 8233))%N.

(** What [String.prototype.trim] strips and what [\s] matches. *)
Definition isSpace (c : char) : bool :=
  isWhiteSpace c || isLineTerminator c.

Fixpoint trimStart (s : jsstring) : jsstring :=
  match s with
  | c :: s' => if isSpace c then trimStart s' else s
  | [] => []
  end.

Definition trimEnd (s : jsstring) : jsstring := rev (trimStart (rev s)).

Definition trim (s : jsstring) : jsstring := trimEnd (trimStart s).

Fixpoint startsWith (s p : jsstring) {struct p} : bool :=
  match p with
  | [] => true
  | a :: p' =>
      match s with
      | b :: s' => (a =? b)%N && startsWith s' p'
      | [] => false
      end
  end.

(** [s.substring(n)]: the string from index [n] on. *)
Definition substring (n : nat) (s : jsstring) : jsstring := skipn n s.

(** [s.split(sep)] for a one-unit separator: never the empty array. *)
Fixpoint splitOn (sep : char) (s : jsstring) : list jsstring :=
  match s with
  | [] => [[]]
  | c :: s' =>
      if (c =? sep)%N then [] :: splitOn sep s'
      else match splitOn sep s' with
           | l :: ls => (c :: l) :: ls
           | [] => [[c]]
           end
  end.

End JsString.

(** ** Regular expressions *)

Module RegExp.

(** The constructs the source's patterns use.  Every quantifier of the
    source ranges over a single character class, so [Rep] takes one. *)
Inductive regex : Type :=
| Eps                                        (* empty pattern *)
| Ch (p : char -> bool)                      (* a literal, a class or [.] *)
| Seq (r1 r2 : regex)
| Alt (r1 r2 : regex)                        (* r1|r2 *)
| Rep (greedy : bool) (p : char -> bool)     (* [p]* and [p]*? *)
| Grp (i : nat) (r : regex)                  (* capture group number i *)
| Bol                                        (* ^ without the m flag *)
| Eol                                        (* $ without the m flag *)
| NotBehind (p : char -> bool)               (* (?<!p) *)
| NotAhead (p : char -> bool).               (* (?!p) *)

Definition captures := list (nat * jsstring).

(** Matcher state: the input before the current index (nearest unit
    first), the input from the current index on, and the captures. *)
Record state : Type := State {
  before : jsstring;
  after : jsstring;
  caps : captures
}.

(** The text of group [i]; [None] is the [undefined] of a group that took
    no part in the match. *)
Fixpoint capture (i : nat) (cs : captures) : option jsstring :=
  match cs with
  | [] => None
  | (j, t) :: cs' => if Nat.eqb i j then Some t else capture i cs'
  end.

(** The same where [undefined] reads as the empty string. *)
Definition cap (i : nat) (cs : captures) : jsstring :=
  match capture i cs with
  | Some t => t
  | None => []
  end.

(** The units consumed between two states of one run. *)
Definition consumed (st st' : state) : jsstring :=
  rev (firstn (length (before st') - length (before st)) (before st')).

Definition holds (p : char -> bool) (s : jsstring) : bool :=
  match s with
  | c :: _ => p c
  | [] => false
  end.

Section Matcher.

Variable A : Type.

(** [p]* (greedy: longest first) and [p]*? (lazy: shortest first), each
    falling back to the other lengths when the continuation fails. *)
Fixpoint rep (greedy : bool) (p : char -> bool) (k : state -> option A)
         (bef aft : jsstring) (cs : captures) : option A :=
  match aft with
  | c :: aft' =>
      if p c then
        if greedy then
          match rep greedy p k (c :: bef) aft' cs with
          | Some res => Some res
          | None => k (State bef aft cs)
          end
        else
          match k (State bef aft cs) with
          | Some res => Some res
          | None => rep greedy p k (c :: bef) aft' cs
          end
      else k (State bef aft cs)
  | [] => k (State bef [] cs)
  end.

Fixpoint run (r : regex) (st : state) (k : state -> option A) : option A :=
  match r with
  | Eps => k st
  | Ch p =>
      match after st with
      | c :: aft' =>
          if p c then k (State (c :: before st) aft' (caps st)) else None
      | [] => None
      end
  | Seq r1 r2 => run r1 st (fun st' => run r2 st' k)
  | Alt r1 r2 =>
      match run r1 st k with
      | Some res => Some res
      | None => run r2 st k
      end
  | Rep greedy p => rep greedy p k (before st) (after st) (caps st)
  | Grp i r =>
      run r st (fun st' =>
        k (State (before st') (after st') ((i, consumed st st') :: caps st')))
  | Bol => match before st with [] => k st | _ :: _ => None end
  | Eol => match after st with [] => k st | _ :: _ => None end
  | NotBehind p => if holds p (before st) then None else k st
  | NotAhead p => if holds p (after st) then None else k st
  end.

End Matcher.

(** One match attempt at the index between [bef] and [aft]: the length of
    the match and its captures. *)
Definition exec (r : regex) (bef aft : jsstring) : option (nat * captures) :=
  match run r (State bef aft []) (fun st => Some st) with
  | Some st => Some (length (before st) - length bef, caps st)
  | None => None
  end.

Fixpoint groups (r : regex) : nat :=
  match r with
  | Seq r1 r2 | Alt r1 r2 => groups r1 + groups r2
  | Grp _ r => S (groups r)
  | _ => 0
  end.

(** Derived forms. *)
Definition lit1 (a : ascii) : regex := Ch (N.eqb (N_of_ascii a)).
Definition lit (s : string) : regex :=
  fold_right (fun a r => Seq (lit1 a) r) Eps (list_ascii_of_string s).
Definition plus (greedy : bool) (p : char -> bool) : regex :=
  Seq (Ch p) (Rep greedy p).
Definition opt (r : regex) : regex := Alt r Eps.

(** The replacement text of one match (GetSubstitution): [$$], [$&] and
    [$1]..[$9]; a [$n] beyond the pattern's groups stays as written. *)
Fixpoint expand (ngroups : nat) (tmpl matched : jsstring) (cs : captures)
  : jsstring :=
  match tmpl with
  | [] => []
  | 36%N :: t =>
      match t with
      | 36%N :: t' => 36%N :: expand ngroups t' matched cs
      | 38%N :: t' => matched ++ expand ngroups t' matched cs
      | d :: t' =>
          if ((49 <=? d) && (d <=? 57))%N
             && (N.to_nat (d - 48) <=? ngroups)
          then cap (N.to_nat (d - 48)) cs ++ expand ngroups t' matched cs
          else 36%N :: expand ngroups t matched cs
      | [] => [36%N]
      end
  | c :: t => c :: expand ngroups t matched cs
  end.

(** [s.replace(/r/g, tmpl)].  [skip] counts the units of the current match
    still to be passed over; an empty match is replaced and the scan moves
    on by one unit. *)
Fixpoint replaceFrom (r : regex) (tmpl : jsstring) (skip : nat)
         (bef aft : jsstring) : jsstring :=
  match skip with
  | S n =>
      match aft with
      | c :: aft' => replaceFrom r tmpl n (c :: bef) aft'
      | [] => []
      end
  | O =>
      match exec r bef aft with
      | Some (len, cs) =>
          expand (groups r) tmpl (firstn len aft) cs ++
          match aft with
          | c :: aft' =>
              match len with
              | S n => replaceFrom r tmpl n (c :: bef) aft'
              | O => c :: replaceFrom r tmpl 0 (c :: bef) aft'
              end
          | [] => []
          end
      | None =>
          match aft with
          | c :: aft' => c :: replaceFrom r tmpl 0 (c :: bef) aft'
          | [] => []
          end
      end
  end.

Definition replaceAll (r : regex) (tmpl : jsstring) (s : jsstring) : jsstring :=
  replaceFrom r tmpl 0 [] s.

(** [/r/.test(s)]: is there a match at some index? *)
Fixpoint testFrom (r : regex) (bef aft : jsstring) : bool :=
  match exec r bef aft with
  | Some _ => true
  | None =>
      match aft with
      | c :: aft' => testFrom r (c :: bef) aft'
      | [] => false
      end
  end.

Definition test (r : regex) (s : jsstring) : bool := testFrom r [] s.

(** [s.split(/r/g)]: the pieces between the matches, each match followed
    by its capture groups ([undefined] for a group that took no part).
    [cur] holds the piece being collected (last unit first). *)
Fixpoint splitFrom (r : regex) (skip : nat) (cur bef aft : jsstring)
  : list (option jsstring) :=
  match aft with
  | [] => [Some (rev cur)]
  | c :: aft' =>
      match skip with
      | S n => splitFrom r n [] (c :: bef) aft'
      | O =>
          match exec r bef aft with
          | Some (S n, cs) =>
              Some (rev cur) :: map (fun i => capture i cs) (seq 1 (groups r))
              ++ splitFrom r n [] (c :: bef) aft'
          | Some (O, cs) =>
              match cur with
              | [] => splitFrom r 0 [c] (c :: bef) aft'
              | _ :: _ =>
                  Some (rev cur)
                  :: map (fun i => capture i cs) (seq 1 (groups r))
                  ++ splitFrom r 0 [c] (c :: bef) aft'
              end
          | None => splitFrom r 0 (c :: cur) (c :: bef) aft'
          end
      end
  end.

Definition split (r : regex) (s : jsstring) : list (option jsstring) :=
  match s with
  | [] => match exec r [] [] with Some _ => [] | None => [Some []] end
  | _ :: _ => splitFrom r 0 [] [] s
  end.

End RegExp.

Import RegExp.

Infix "+++" := Seq (at level 60, right associativity).

Definition code (a : ascii) : char := N_of_ascii a.
Definition eqc (a : ascii) : char -> bool := N.eqb (code a).
Definition nec (a : ascii) : char -> bool := fun c => negb (eqc a c).

(** ** The inline formatter ([applyInlineFormatting]) *)

Module Inline.

(** [/&/g], [/</g], [/>/g] *)
Definition amp_re : regex := lit "&".
Definition lt_re : regex := lit "<".
Definition gt_re : regex := lit ">".

(** The class [[^\s)]] of the units of a link target. *)
Definition url_class (c : char) : bool :=
  negb (JsString.isSpace c || eqc ")" c).

(** The dot: all but the line terminators. *)
Definition dot (c : char) : bool := negb (JsString.isLineTerminator c).

(** The class [[^\s*]] that opens an asterisk italic. *)
Definition italic_start (c : char) : bool :=
  negb (JsString.isSpace c || eqc "*" c).

(** [/\[([^\]]+)\]\((https?:\/\/[^\s)]+)\)/g] *)
Definition link_re : regex :=
  lit "[" +++ Grp 1 (plus true (nec "]")) +++ lit "](" +++
  Grp 2 (lit "http" +++ opt (lit "s") +++ lit "://" +++
         plus true url_class) +++
  lit ")".

(** [/\*\*(.*?)\*\*/g] *)
Definition bold_re : regex :=
  lit "**" +++ Grp 1 (Rep false dot) +++ lit "**".

(** [/_([^_]+)_/g] *)
Definition underscore_re : regex :=
  lit "_" +++ Grp 1 (plus true (nec "_")) +++ lit "_".

(** The asterisk italic of line 44: not preceded by an asterisk, an
    asterisk, group 1 (one unit that is neither white space nor an
    asterisk, then lazily units that are not asterisks), an asterisk, not
    followed by an asterisk. *)
Definition asterisk_re : regex :=
  NotBehind (eqc "*") +++ lit "*" +++
  Grp 1 (Ch italic_start +++ Rep false (nec "*")) +++
  lit "*" +++ NotAhead (eqc "*").

(** [/`([^`]+)`/g] *)
Definition code_re : regex :=
  lit "`" +++ Grp 1 (plus true (nec "`")) +++ lit "`".

(** The double quote of the attribute values. *)
Definition dq : jsstring := [34%N].

Definition link_tmpl : jsstring :=
  js "<a href=" ++ dq ++ js "$2" ++ dq ++
  js " target=" ++ dq ++ js "_blank" ++ dq ++
  js " rel=" ++ dq ++ js "noopener noreferrer" ++ dq ++
  js " class=" ++ dq ++ js "text-indigo-500 hover:underline" ++ dq ++
  js ">$1</a>".
Definition bold_tmpl : jsstring := js "<strong>$1</strong>".
Definition em_tmpl : jsstring := js "<em>$1</em>".
Definition code_tmpl : jsstring :=
  js "<code class=" ++ dq ++
  js "bg-gray-200 dark:bg-gray-700 rounded-lg px-1.5 py-1 font-mono text-sm"
  ++ dq ++ js ">$1</code>".

(** The escape pre-pass: ampersand first, then the angle brackets. *)
Definition escapeHtml (text : jsstring) : jsstring :=
  replaceAll gt_re (js "&gt;")
    (replaceAll lt_re (js "&lt;")
      (replaceAll amp_re (js "&amp;") text)).

Definition linkPass : jsstring -> jsstring := replaceAll link_re link_tmpl.
Definition boldPass : jsstring -> jsstring := replaceAll bold_re bold_tmpl.
Definition underscorePass : jsstring -> jsstring :=
  replaceAll underscore_re em_tmpl.
Definition asteriskPass : jsstring -> jsstring :=
  replaceAll asterisk_re em_tmpl.
Definition codePass : jsstring -> jsstring := replaceAll code_re code_tmpl.

Definition applyInlineFormatting (text : jsstring) : jsstring :=
  codePass (asteriskPass (underscorePass (boldPass (linkPass
    (escapeHtml text))))).

End Inline.

(** ** The renderer ([renderContent]) *)

Module Render.

Import Inline.

(** Children of a text block's [div].  The heading, list item and
    paragraph bodies are the markup strings handed to
    [dangerouslySetInnerHTML]. *)
Inductive Element : Type :=
| H2 (html : jsstring)
| H3 (html : jsstring)
| Ul (items : list jsstring)
| Br
| P (html : jsstring).

(** One node per block: [pre]/[code] with a text child, or a [div]. *)
Inductive Node : Type :=
| Pre (text : jsstring)
| Div (children : list Element).

(** [/(```[\s\S]*?```)/g] *)
Definition fence_re : regex :=
  Grp 1 (lit "```" +++ Rep false (fun _ => true) +++ lit "```").

(** [/^```/] *)
Definition fence_start_re : regex := Bol +++ lit "```".

(** [/^```[a-z]*\n|```$/g] *)
Definition fence_strip_re : regex :=
  Alt (Bol +++ lit "```" +++
       Rep true (fun c => (97 <=? c)%N && (c <=? 122)%N) +++ Ch (N.eqb 10))
      (lit "```" +++ Eol).

(** The state of the line loop: the elements pushed so far and the
    pending list items (whole lines). *)
Record lines_state : Type := LS {
  elements : list Element;
  listItems : list jsstring
}.

Definition flushListItems (st : lines_state) : lines_state :=
  match listItems st with
  | [] => st
  | _ :: _ =>
      LS (elements st ++
          [Ul (map (fun item =>
                 applyInlineFormatting (JsString.substring 2 item))
                 (listItems st))])
         []
  end.

Definition push (e : Element) (st : lines_state) : lines_state :=
  LS (elements st ++ [e]) (listItems st).

(** The body of [lines.forEach]. *)
Definition processLine (st : lines_state) (line : jsstring) : lines_state :=
  if JsString.startsWith line (js "## ") then
    push (H2 (applyInlineFormatting (JsString.substring 3 line)))
         (flushListItems st)
  else if JsString.startsWith line (js "### ") then
    push (H3 (applyInlineFormatting (JsString.substring 4 line)))
         (flushListItems st)
  else if JsString.startsWith (JsString.trim line) (js "* ") then
    LS (elements st) (listItems st ++ [line])
  else if match JsString.trim line with [] => true | _ :: _ => false end then
    let st' := flushListItems st in
    match elements st' with
    | [] => st'
    | _ :: _ => push Br st'
    end
  else
    push (P (applyInlineFormatting line)) (flushListItems st).

Definition renderText (block : jsstring) : list Element :=
  elements (flushListItems
    (fold_left processLine (JsString.splitOn 10%N block) (LS [] []))).

(** What a call yields: a value, or a thrown [TypeError]. *)
Inductive outcome (A : Type) : Type :=
| Returns (a : A)
| Throws.
Arguments Throws {A}.

(** The callback of [blocks.map].  On an [undefined] block the fence test
    reads the string of that name and fails, and [block.split] throws. *)
Definition renderBlock (block : option jsstring) : outcome Node :=
  match block with
  | Some b =>
      if test fence_start_re b then
        Returns (Pre (escapeHtml (replaceAll fence_strip_re [] b)))
      else Returns (Div (renderText b))
  | None => Throws
  end.

Fixpoint mapBlocks (blocks : list (option jsstring)) : outcome (list Node) :=
  match blocks with
  | [] => Returns []
  | b :: bs =>
      match renderBlock b with
      | Returns n =>
          match mapBlocks bs with
          | Returns ns => Returns (n :: ns)
          | Throws => Throws
          end
      | Throws => Throws
      end
  end.

(** [null] for the empty string, else one node per block. *)
Definition renderContent (content : jsstring)
  : outcome (option (list Node)) :=
  match content with
  | [] => Returns None
  | _ :: _ =>
      match mapBlocks (split fence_re content) with
      | Returns ns => Returns (Some ns)
      | Throws => Throws
      end
  end.

End Render.

(** ** The interaction shell ([App], [handleGeneratePost]) *)

Module App.

(** The component state that the generate action reads and writes. *)
Record AppState : Type := mkApp {
  prompt : jsstring;
  generatedPost : jsstring;
  isLoading : bool;
  error : option jsstring
}.

Definition initial : AppState := mkApp [] [] false None.

(** [!prompt.trim()]: the trimmed prompt is the empty string. *)
Definition blank (s : jsstring) : bool :=
  match JsString.trim s with
  | [] => true
  | _ :: _ => false
  end.

(** [handleGeneratePost] up to its [await]: the new state and the request
    handed to [generateBlogPost], if one is made. *)
Definition handleGeneratePost (st : AppState) : AppState * option jsstring :=
  if blank (prompt st) || isLoading st then (st, None)
  else (mkApp (prompt st) [] true None, Some (prompt st)).

(** How the awaited call ends: with the text, or with a thrown value that
    is an [Error] with a message or something else. *)
Inductive settlement : Type :=
| Fulfilled (text : jsstring)
| Rejected (message : option jsstring).

(** [handleGeneratePost] after its [await], with the [finally] clause. *)
Definition settle (o : settlement) (st : AppState) : AppState :=
  match o with
  | Fulfilled text => mkApp (prompt st) text false (error st)
  | Rejected (Some m) => mkApp (prompt st) (generatedPost st) false (Some m)
  | Rejected None =>
      mkApp (prompt st) (generatedPost st) false
            (Some (js "An unknown error occurred."))
  end.

(** The shell together with the requests that have been made and have not
    settled yet.  Every handler runs on the state of the latest render. *)
Record World : Type := mkWorld {
  ui : AppState;
  inflight : list jsstring
}.

Inductive event : Type :=
| Generate                      (* the generate action is invoked *)
| Edit (text : jsstring)        (* the prompt is edited *)
| Settle (o : settlement).         (* the oldest outstanding request ends *)

Definition step (w : World) (e : event) : World :=
  match e with
  | Generate =>
      match handleGeneratePost (ui w) with
      | (st, Some request) => mkWorld st (inflight w ++ [request])
      | (st, None) => mkWorld st (inflight w)
      end
  | Edit text =>
      mkWorld (mkApp text (generatedPost (ui w)) (isLoading (ui w))
                     (error (ui w)))
              (inflight w)
  | Settle o =>
      match inflight w with
      | _ :: rest => mkWorld (settle o (ui w)) rest
      | [] => w
      end
  end.

Definition run_events (events : list event) : World :=
  fold_left step events (mkWorld initial []).

End App.


(** ** What the page shows ([App], the output section) *)

Module Display.

Import App.

(** A string in a condition: the empty string counts as false. *)
Definition truthy (s : jsstring) : bool :=
  match s with
  | [] => false
  | _ :: _ => true
  end.

(** [error] in a condition: [null] and the empty string count as false. *)
Definition errorShown (e : option jsstring) : bool :=
  match e with
  | Some m => truthy m
  | None => false
  end.

Inductive panel : Type :=
| Thinking
| Failure (message : jsstring)
| Post (content : jsstring)
| Placeholder.

(** The four conditional children of the output box, in order. *)
Definition panels (st : AppState) : list panel :=
  (if isLoading st then [Thinking] else []) ++
  (match error st with
   | Some m => if truthy m then [Failure m] else []
   | None => []
   end) ++
  (if negb (isLoading st) && negb (errorShown (error st))
      && truthy (generatedPost st)
   then [Post (generatedPost st)] else []) ++
  (if negb (isLoading st) && negb (errorShown (error st))
      && negb (truthy (generatedPost st))
   then [Placeholder] else []).

(** The [disabled] attribute of the generate button. *)
Definition buttonDisabled (st : AppState) : bool :=
  isLoading st || blank (prompt st).

End Display.

(** ** The theme ([App], the two effects; [ThemeToggle]) *)

Module Theme.

(** [a === b] on strings. *)
Fixpoint eqs (a b : jsstring) : bool :=
  match a, b with
  | [], [] => true
  | x :: a', y :: b' => (x =? y)%N && eqs a' b'
  | _, _ => false
  end.

(** What the effects read and write outside the component: the [theme]
    entry of the local storage and the [dark] class of the root element. *)
Record Env : Type := mkEnv {
  stored : option jsstring;
  darkClass : bool
}.

Record Page : Type := mkPage {
  theme : jsstring;
  env : Env
}.

(** The theme the mount effect sets: the stored value if it is a
    non-empty string, whatever it is, else the preference of the system. *)
Definition initialTheme (storedTheme : option jsstring) (prefersDark : bool)
  : jsstring :=
  match storedTheme with
  | Some (c :: s) => c :: s
  | _ => if prefersDark then js "dark" else js "light"
  end.

(** The effect that follows [theme]. *)
Definition syncTheme (t : jsstring) (e : Env) : Env :=
  if eqs t (js "dark") then mkEnv (Some (js "dark")) true
  else mkEnv (Some (js "light")) false.

(** The first render has the theme [light]; the mount effect reads the
    storage, then the sync effect of that render writes it; if the mount
    effect has set another theme, a second render runs the sync effect
    again. *)
Definition mount (prefersDark : bool) (e : Env) : Page :=
  let t := initialTheme (stored e) prefersDark in
  let e1 := syncTheme (js "light") e in
  if eqs t (js "light") then mkPage t e1 else mkPage t (syncTheme t e1).

(** [toggleTheme] of the toggle button. *)
Definition toggleTheme (t : jsstring) : jsstring :=
  if eqs t (js "light") then js "dark" else js "light".

(** A click on the toggle, and the render that follows it. *)
Definition click (p : Page) : Page :=
  let t := toggleTheme (theme p) in mkPage t (syncTheme t (env p)).

Fixpoint clicks (n : nat) (p : Page) : Page :=
  match n with
  | O => p
  | S n' => clicks n' (click p)
  end.

End Theme.

(** ** The text service ([generateBlogPost]) *)

Module Service.

Import App.

(** How the call to the model ends. *)
Inductive apiResult : Type :=
| ApiText (text : jsstring)
| ApiThrows.

Definition failureMessage : jsstring :=
  js "Failed to generate blog post from AI. Please check your API key and try again.".

(** [generateBlogPost]: the text of the response, or the one error of the
    [catch] clause whatever was thrown. *)
Definition generateBlogPost (r : apiResult) : settlement :=
  match r with
  | ApiText text => Fulfilled text
  | ApiThrows => Rejected (Some failureMessage)
  end.

End Service.

(** ** The copy button ([handleCopy]) *)

Module Copy.

(** The flag of the button label and the timers that have been set and
    have not fired, by the time they are due, oldest first. *)
Record CopyState : Type := mkCopy {
  isCopied : bool;
  timers : list nat
}.

Inductive copyEvent : Type :=
| Written (now : nat)     (* the clipboard write is fulfilled at [now] *)
| Refused                 (* the clipboard write is rejected *)
| Fired.                  (* the oldest timer fires *)

Definition copyStep (st : CopyState) (e : copyEvent) : CopyState :=
  match e with
  | Written now => mkCopy true (timers st ++ [now + 2000])
  | Refused => st
  | Fired =>
      match timers st with
      | _ :: rest => mkCopy false rest
      | [] => st
      end
  end.

Definition copyRun (events : list copyEvent) : CopyState :=
  fold_left copyStep events (mkCopy false []).

End Copy.
(** ** The matcher and the scans, declaratively *)

Module MatchSpec.

(** [Match r bef x rest cs cs']: at the index that has [bef] before it,
    the pattern [r] can consume exactly [x], leaving [rest], and turn the
    captures [cs] into [cs'].  The order in which the matcher tries the
    alternatives is left out: every result of [run] satisfies it. *)
Inductive Match
  : regex -> jsstring -> jsstring -> jsstring -> captures -> captures -> Prop :=
| M_Eps bef rest cs : Match Eps bef [] rest cs cs
| M_Ch p c bef rest cs : p c = true -> Match (Ch p) bef [c] rest cs cs
| M_Seq r1 r2 bef x1 x2 rest cs cs1 cs2 :
    Match r1 bef x1 (x2 ++ rest) cs cs1 ->
    Match r2 (rev x1 ++ bef) x2 rest cs1 cs2 ->
    Match (Seq r1 r2) bef (x1 ++ x2) rest cs cs2
| M_AltL r1 r2 bef x rest cs cs' :
    Match r1 bef x rest cs cs' -> Match (Alt r1 r2) bef x rest cs cs'
| M_AltR r1 r2 bef x rest cs cs' :
    Match r2 bef x rest cs cs' -> Match (Alt r1 r2) bef x rest cs cs'
| M_Rep g p bef x rest cs :
    forallb p x = true -> Match (Rep g p) bef x rest cs cs
| M_Grp i r bef x rest cs cs' :
    Match r bef x rest cs cs' ->
    Match (Grp i r) bef x rest cs ((i, x) :: cs')
| M_Bol rest cs : Match Bol [] [] rest cs cs
| M_Eol bef cs : Match Eol bef [] [] cs cs
| M_NotBehind p bef rest cs :
    holds p bef = false -> Match (NotBehind p) bef [] rest cs cs
| M_NotAhead p bef rest cs :
    holds p rest = false -> Match (NotAhead p) bef [] rest cs cs.

(** The scan of [replaceAll] as a derivation: units outside matches are
    copied, each match [x] is replaced by its expansion. *)
Inductive Repl (r : regex) (tmpl : jsstring)
  : jsstring -> jsstring -> jsstring -> Prop :=
| Repl_nil bef : Repl r tmpl bef [] []
| Repl_copy bef c aft out :
    exec r bef (c :: aft) = None ->
    Repl r tmpl (c :: bef) aft out ->
    Repl r tmpl bef (c :: aft) (c :: out)
| Repl_hit bef x aft cs out :
    x <> [] ->
    exec r bef (x ++ aft) = Some (length x, cs) ->
    Repl r tmpl (rev x ++ bef) aft out ->
    Repl r tmpl bef (x ++ aft) (expand (groups r) tmpl x cs ++ out).

(** A pattern that never matches the empty string. *)
Definition nonempty (r : regex) : Prop :=
  forall bef aft len cs, exec r bef aft = Some (len, cs) -> len <> 0.

(** A pattern that does not look at the input before the current index. *)
Fixpoint forward (r : regex) : bool :=
  match r with
  | Seq r1 r2 | Alt r1 r2 => forward r1 && forward r2
  | Grp _ r => forward r
  | Bol | NotBehind _ => false
  | _ => true
  end.

(** Every match of the pattern starts with a unit of the class [start]. *)
Definition starts_with (r : regex) (start : char -> bool) : Prop :=
  forall bef aft len cs,
    exec r bef aft = Some (len, cs) -> holds start aft = true.

End MatchSpec.

(** ** Two runs of the matcher side by side *)

Module ForwardSpec.

Section Related.

Variables A1 A2 : Type.
Variable R : A1 -> A2 -> Prop.
Variables b1 b2 : jsstring.

Definition related (o1 : option A1) (o2 : option A2) : Prop :=
  match o1, o2 with
  | Some r1, Some r2 => R r1 r2
  | None, None => True
  | _, _ => False
  end.

(** Continuations that agree wherever the two runs can be: at the same
    place of the same input, at least [n] units in, before it [b1] in one
    run and [b2] in the other. *)
Definition agree (n : nat) (k1 : state -> option A1)
           (k2 : state -> option A2) : Prop :=
  forall p rest cs,
    n <= length p ->
    related (k1 (State (p ++ b1) rest cs)) (k2 (State (p ++ b2) rest cs)).

End Related.

End ForwardSpec.

(** ** Safe markup *)

Module Markup.

Import Inline.

(** The units that never stand for themselves in safe markup. *)
Definition special (c : char) : bool :=
  eqc "&" c || eqc "<" c || eqc ">" c.

Definition link_open : jsstring := js "<a href=" ++ dq.
Definition link_attrs : jsstring :=
  dq ++ js " target=" ++ dq ++ js "_blank" ++ dq ++
  js " rel=" ++ dq ++ js "noopener noreferrer" ++ dq ++
  js " class=" ++ dq ++ js "text-indigo-500 hover:underline" ++ dq ++ js ">".
Definition link_close : jsstring := js "</a>".
Definition code_open : jsstring :=
  js "<code class=" ++ dq ++
  js "bg-gray-200 dark:bg-gray-700 rounded-lg px-1.5 py-1 font-mono text-sm"
  ++ dq ++ js ">".
Definition code_close : jsstring := js "</code>".

(** The end of the opening tag of a link, from after the underscore of
    its [target] attribute on. *)
Definition link_attrs_end : jsstring :=
  js "blank" ++ dq ++ js " rel=" ++ dq ++ js "noopener noreferrer" ++ dq ++
  js " class=" ++ dq ++ js "text-indigo-500 hover:underline" ++ dq ++ js ">".

Definition entities : list jsstring := [js "&amp;"; js "&lt;"; js "&gt;"].

(** The pieces of the emitted tags that hold an angle bracket. *)
Definition tag_pieces : list jsstring :=
  [link_open; link_attrs_end; link_close;
   js "<strong>"; js "</strong>"; js "<em>"; js "</em>";
   code_open; code_close].

Definition fragments : list jsstring := entities ++ tag_pieces.

(** Safe markup: a sequence of units other than [&], [<], [>], of entity
    references and of pieces of the emitted tags. *)
Inductive Safe : jsstring -> Prop :=
| Safe_nil : Safe []
| Safe_unit c s : special c = false -> Safe s -> Safe (c :: s)
| Safe_frag f s : In f fragments -> Safe s -> Safe (f ++ s).

(** Text without markup: units other than [&], [<], [>] and entities. *)
Inductive Escaped : jsstring -> Prop :=
| Escaped_nil : Escaped []
| Escaped_unit c s : special c = false -> Escaped s -> Escaped (c :: s)
| Escaped_entity e s : In e entities -> Escaped s -> Escaped (e ++ s).

(** The units that delimit the constructs of the inline patterns. *)
Definition delimiter (c : char) : bool :=
  eqc "[" c || eqc "]" c || eqc "(" c || eqc ")" c ||
  eqc "*" c || eqc "_" c || eqc "`" c.

(** Escaping one unit of raw text, once. *)
Definition escape_unit (c : char) : jsstring :=
  if eqc "&" c then js "&amp;"
  else if eqc "<" c then js "&lt;"
  else if eqc ">" c then js "&gt;"
  else [c].

(** How many units of a class a text holds. *)
Definition count (p : char -> bool) (s : jsstring) : nat :=
  length (filter p s).

(** The units that open a link, a bold or an italic construct. *)
Definition opens_rule (c : char) : bool :=
  eqc "[" c || eqc "*" c || eqc "_" c.

(** [s] occurs in [t]. *)
Definition occurs (s t : jsstring) : Prop :=
  exists pre post, t = pre ++ s ++ post.

(** What a pass needs to keep markup safe: around a match the markup falls
    apart into safe pieces, and the replacement text is safe. *)
Definition keeps_safe (r : regex) (tmpl : jsstring) : Prop :=
  forall bef x rest cs pre,
    exec r bef (x ++ rest) = Some (length x, cs) ->
    Safe (pre ++ x ++ rest) ->
    Safe pre /\ Safe (expand (groups r) tmpl x cs) /\ Safe rest.


End Markup.

(** ** Reading the renderer's result *)

Module RenderSpec.

Import Inline Render Markup.

Definition SafeElement (e : Element) : Prop :=
  match e with
  | H2 html | H3 html | P html => Safe html
  | Ul items => Forall Safe items
  | Br => True
  end.

Definition SafeNode (n : Node) : Prop :=
  match n with
  | Pre text => Escaped text
  | Div children => Forall SafeElement children
  end.

(** The node sequence handed to the page: nothing for [null]. *)
Definition rendered (content : jsstring) : list Node :=
  match renderContent content with
  | Returns (Some nodes) => nodes
  | Returns None | Throws => []
  end.

(** The lines taken by the list branch of the loop. *)
Definition isListItem (line : jsstring) : bool :=
  negb (JsString.startsWith line (js "## ")) &&
  negb (JsString.startsWith line (js "### ")) &&
  JsString.startsWith (JsString.trim line) (js "* ").

Definition itemHtml (line : jsstring) : jsstring :=
  applyInlineFormatting (JsString.substring 2 line).

Definition isUl (e : Element) : bool :=
  match e with
  | Ul _ => true
  | _ => false
  end.

Definition nl : jsstring := [10%N].

End RenderSpec.

(** ** Reading the interaction shell *)

Module AppSpec.

Import App.

(** The loading flag tells whether a request is outstanding, and at most
    one is. *)
Definition one_request (w : World) : Prop :=
  (isLoading (ui w) = false /\ inflight w = []) \/
  (isLoading (ui w) = true /\ exists request, inflight w = [request]).

End AppSpec.

(** ** Reading lines of text *)

Module TextSpec.

Import Inline Markup.

(** The units that take part in a rule of the formatter: the three that
    open a link, a bold or an italic construct, and the backtick. *)
Definition rule_unit (c : char) : bool := opens_rule c || eqc "`" c.

(** Text that holds none of them. *)
Definition plain_text (s : jsstring) : bool :=
  forallb (fun c => negb (rule_unit c)) s.

(** No two neighbouring units of the text stand in the relation [p]. *)
Fixpoint no_adjacent (p : char -> char -> bool) (s : jsstring) : bool :=
  match s with
  | c :: s' =>
      match s' with
      | d :: _ => negb (p c d) && no_adjacent p s'
      | [] => true
      end
  | [] => true
  end.

(** Two asterisks in a row. *)
Definition star_pair (c d : char) : bool := eqc "*" c && eqc "*" d.

(** An asterisk with a unit other than white space right after it. *)
Definition star_then_text (c d : char) : bool :=
  eqc "*" c && negb (JsString.isSpace d).

(** The units that open a rule other than the two asterisk rules. *)
Definition opens_other (c : char) : bool :=
  eqc "[" c || eqc "_" c || eqc "`" c.


End TextSpec.


(** ** Reading fenced blocks *)

Module FenceSpec.

Import Inline Render.

(** The class of the letters of a language hint. *)
Definition lower (c : char) : bool := ((97 <=? c) && (c <=? 122))%N.

(** Does the text start with a run of such letters and a line feed? *)
Fixpoint hint_line (s : jsstring) : bool :=
  match s with
  | [] => false
  | c :: s' => (c =? 10)%N || (lower c && hint_line s')
  end.

(** Do three backticks in a row occur in the text? *)
Fixpoint has_fence (s : jsstring) : bool :=
  JsString.startsWith s (js "```") ||
  match s with
  | [] => false
  | _ :: s' => has_fence s'
  end.

(** A block between an opening and a closing fence. *)
Definition fenced (inner : jsstring) : jsstring :=
  js "```" ++ inner ++ js "```".

End FenceSpec.

(** ** The shape of a text block *)

Module BlockSpec.

Import Render.

(** No list is empty and no list comes right after a list; [prev] tells
    whether the element before the first one is a list. *)
Fixpoint lists_ok (prev : bool) (els : list Element) : bool :=
  match els with
  | [] => true
  | Ul items :: rest =>
      negb prev && match items with [] => false | _ :: _ => true end
      && lists_ok true rest
  | _ :: rest => lists_ok false rest
  end.

Definition starts_with_break (els : list Element) : bool :=
  match els with
  | Br :: _ => true
  | _ => false
  end.

Definition ends_with_list (els : list Element) : bool :=
  match last els Br with
  | Ul _ => true
  | _ => false
  end.

End BlockSpec.

(** ** What the page holds *)

Module DisplaySpec.

Import App.

(** While a request is in flight the page holds neither a post nor an
    error, and an error and a post are never held together. *)
Definition settled_shape (st : AppState) : Prop :=
  (isLoading st = true -> error st = None /\ generatedPost st = []) /\
  (error st <> None -> generatedPost st = []).

End DisplaySpec.

(** ** Requests answered by the text service *)

Module ServiceSpec.

Import App Service.

(** The settlements of the event are those that [generateBlogPost]
    produces. *)
Definition served (e : event) : Prop :=
  match e with
  | Settle o => exists r, o = generateBlogPost r
  | _ => True
  end.

End ServiceSpec.

(** ** The theme and what lies outside the component *)

Module ThemeSpec.

Import Theme.

(** One of the two values of the type [Theme]. *)
Definition valid (t : jsstring) : bool :=
  eqs t (js "light") || eqs t (js "dark").

(** The root element has the [dark] class exactly when the theme is
    [dark], and the storage holds [dark] or [light] accordingly. *)
Definition in_sync (p : Page) : Prop :=
  darkClass (env p) = eqs (theme p) (js "dark") /\
  stored (env p) =
  Some (if eqs (theme p) (js "dark") then js "dark" else js "light").

End ThemeSpec.
(** ** Facts about the matcher *)

Module RegExpFacts.

Import MatchSpec.

Lemma rep_sound (A : Type) g p (k : state -> option A) aft :
  forall bef cs res,
    rep g p k bef aft cs = Some res ->
    exists x aft', aft = x ++ aft' /\ forallb p x = true /\
                   k (State (rev x ++ bef) aft' cs) = Some res.
Proof.
  induction aft as [|c aft IH]; intros bef cs res H; simpl in H.
  - exists [], []. auto.
  - destruct (p c) eqn:Hp.
    + assert (Hrec : rep g p k (c :: bef) aft cs = Some res ->
                     exists x aft', c :: aft = x ++ aft' /\
                       forallb p x = true /\
                       k (State (rev x ++ bef) aft' cs) = Some res).
      { intros Hr. destruct (IH _ _ _ Hr) as (x & aft' & -> & Hx & Hk).
        exists (c :: x), aft'. simpl. rewrite Hp, Hx, <- app_assoc.
        auto. }
      destruct g.
      * destruct (rep true p k (c :: bef) aft cs) eqn:Hr.
        -- inversion H; subst. auto.
        -- exists [], (c :: aft). auto.
      * destruct (k (State bef (c :: aft) cs)) eqn:Hk.
        -- inversion H; subst. exists [], (c :: aft). auto.
        -- auto.
    + exists [], (c :: aft). auto.
Qed.

Lemma consumed_spec bef aft cs x aft' cs' :
  consumed (State bef aft cs) (State (rev x ++ bef) aft' cs') = x.
Proof.
  unfold consumed; simpl.
  rewrite length_app, length_rev, Nat.add_sub.
  rewrite <- (length_rev x), firstn_app, Nat.sub_diag, firstn_all.
  simpl. rewrite app_nil_r. apply rev_involutive.
Qed.

Lemma run_sound (A : Type) r :
  forall bef aft cs (k : state -> option A) res,
    run r (State bef aft cs) k = Some res ->
    exists x rest cs',
      aft = x ++ rest /\ Match r bef x rest cs cs' /\
      k (State (rev x ++ bef) rest cs') = Some res.
Proof.
  induction r; intros bef aft cs k res H; simpl in H.
  - exists [], aft, cs. repeat split; [constructor | exact H].
  - destruct aft as [|c aft]; try discriminate.
    destruct (p c) eqn:Hp; try discriminate.
    exists [c], aft, cs. repeat split; [now constructor | exact H].
  - apply IHr1 in H. destruct H as (x1 & rest1 & cs1 & -> & H1 & H).
    apply IHr2 in H. destruct H as (x2 & rest & cs2 & -> & H2 & H).
    exists (x1 ++ x2), rest, cs2. rewrite rev_app_distr, <- !app_assoc.
    repeat split; [econstructor; eassumption | exact H].
  - destruct (run r1 (State bef aft cs) k) eqn:H1.
    + inversion H; subst. apply IHr1 in H1.
      destruct H1 as (x & rest & cs' & -> & Hm & Hk).
      exists x, rest, cs'. repeat split; [now apply M_AltL | exact Hk].
    + apply IHr2 in H. destruct H as (x & rest & cs' & -> & Hm & Hk).
      exists x, rest, cs'. repeat split; [now apply M_AltR | exact Hk].
  - apply rep_sound in H. destruct H as (x & rest & -> & Hx & Hk).
    exists x, rest, cs. repeat split; [now constructor | exact Hk].
  - apply IHr in H. destruct H as (x & rest & cs' & -> & Hm & Hk).
    cbn [before after caps] in Hk. rewrite consumed_spec in Hk.
    exists x, rest, ((i, x) :: cs').
    repeat split; [now constructor | exact Hk].
  - destruct bef; try discriminate.
    exists [], aft, cs. repeat split; [constructor | exact H].
  - destruct aft; try discriminate.
    exists [], [], cs. repeat split; [constructor | exact H].
  - destruct (holds p bef) eqn:Hh; try discriminate.
    exists [], aft, cs. repeat split; [now constructor | exact H].
  - destruct (holds p aft) eqn:Hh; try discriminate.
    exists [], aft, cs. repeat split; [now constructor | exact H].
Qed.

(** The result of [exec], read as a declarative match. *)
Lemma exec_sound r bef aft len cs :
  exec r bef aft = Some (len, cs) ->
  exists x rest,
    aft = x ++ rest /\ len = length x /\ Match r bef x rest [] cs.
Proof.
  unfold exec. intros H.
  destruct (run r (State bef aft []) (fun st => Some st)) as [st|] eqn:Hr;
    try discriminate.
  inversion H; subst; clear H.
  apply run_sound in Hr. destruct Hr as (x & rest & cs' & -> & Hm & Hs).
  inversion Hs; subst; clear Hs. simpl.
  exists x, rest. rewrite length_app, length_rev, Nat.add_sub. auto.
Qed.

(** The same with the match given as a prefix of the input. *)
Lemma exec_sound_at r bef x rest cs :
  exec r bef (x ++ rest) = Some (length x, cs) -> Match r bef x rest [] cs.
Proof.
  intros H. apply exec_sound in H.
  destruct H as (x' & rest' & He & Hl & Hm).
  assert (x' = x).
  { apply (f_equal (firstn (length x))) in He.
    rewrite firstn_app, Nat.sub_diag, firstn_all, Hl in He.
    rewrite firstn_app, Nat.sub_diag, firstn_all in He.
    simpl in He. rewrite !app_nil_r in He. congruence. }
  subst x'. apply app_inv_head in He. now subst.
Qed.

End RegExpFacts.

(** ** Facts about global replacement *)

Module ReplaceFacts.

Import MatchSpec RegExpFacts.

Lemma exec_length r bef aft len cs :
  exec r bef aft = Some (len, cs) -> len <= length aft.
Proof.
  intros H. apply exec_sound in H.
  destruct H as (x & rest & -> & -> & _). rewrite length_app. lia.
Qed.

Lemma replaceFrom_skip r tmpl n :
  forall bef aft,
    n <= length aft ->
    replaceFrom r tmpl n bef aft =
    replaceFrom r tmpl 0 (rev (firstn n aft) ++ bef) (skipn n aft).
Proof.
  induction n as [|n IH]; intros bef aft Hn.
  - reflexivity.
  - destruct aft as [|c aft]; simpl in Hn; [lia|].
    cbn [replaceFrom firstn skipn rev]. rewrite IH by lia.
    now rewrite <- app_assoc.
Qed.

Lemma replaceFrom_Repl r tmpl :
  nonempty r ->
  forall n aft bef,
    length aft <= n -> Repl r tmpl bef aft (replaceFrom r tmpl 0 bef aft).
Proof.
  intros Hne. induction n as [|n IH]; intros aft bef Hlen.
  - destruct aft; simpl in Hlen; [|lia]. simpl.
    destruct (exec r bef []) as [[len cs]|] eqn:He; [|constructor].
    pose proof (exec_length _ _ _ He). apply Hne in He. simpl in *. lia.
  - destruct aft as [|c aft]; [apply IH; simpl; lia|].
    simpl in Hlen. cbn [replaceFrom].
    destruct (exec r bef (c :: aft)) as [[len cs]|] eqn:He.
    + pose proof (exec_length _ _ _ He) as Hl.
      pose proof (Hne _ _ _ _ He) as Hz. simpl in Hl.
      destruct len as [|len]; [congruence|].
      rewrite replaceFrom_skip by lia.
      set (x := c :: firstn len aft).
      assert (Hx : x ++ skipn len aft = c :: aft)
        by (unfold x; simpl; now rewrite firstn_skipn).
      assert (Hxl : length x = S len)
        by (unfold x; simpl; rewrite length_firstn; lia).
      replace (firstn (S len) (c :: aft)) with x by reflexivity.
      replace (rev (firstn len aft) ++ c :: bef) with (rev x ++ bef)
        by (unfold x; simpl; now rewrite <- app_assoc).
      rewrite <- Hx at 1. apply Repl_hit.
      * discriminate.
      * rewrite Hx, Hxl. exact He.
      * apply IH. rewrite length_skipn. lia.
    + apply Repl_copy; [exact He|]. apply IH. lia.
Qed.

Lemma replaceAll_Repl r tmpl s :
  nonempty r -> Repl r tmpl [] s (replaceAll r tmpl s).
Proof.
  intros H. unfold replaceAll.
  apply replaceFrom_Repl with (n := length s); auto.
Qed.

End ReplaceFacts.

(** ** What each pattern of the source matches *)

Module PatternFacts.

Import MatchSpec RegExpFacts ReplaceFacts Inline Render.

Ltac inv H := inversion H; subst; clear H.

Ltac inv_match :=
  repeat match goal with
  | H : Match Eps _ _ _ _ _ |- _ => inv H
  | H : Match (Ch _) _ _ _ _ _ |- _ => inv H
  | H : Match (Seq _ _) _ _ _ _ _ |- _ => inv H
  | H : Match (Alt _ _) _ _ _ _ _ |- _ => inv H
  | H : Match (Rep _ _) _ _ _ _ _ |- _ => inv H
  | H : Match (Grp _ _) _ _ _ _ _ |- _ => inv H
  | H : Match Bol _ _ _ _ _ |- _ => inv H
  | H : Match Eol _ _ _ _ _ |- _ => inv H
  | H : Match (NotBehind _) _ _ _ _ _ |- _ => inv H
  | H : Match (NotAhead _) _ _ _ _ _ |- _ => inv H
  | H : (_ =? _)%N = true |- _ => apply N.eqb_eq in H; subst
  end.

Ltac unfold_pattern H :=
  cbv [amp_re lt_re gt_re link_re bold_re underscore_re asterisk_re code_re
       fence_re fence_start_re fence_strip_re
       lit lit1 plus opt fold_right list_ascii_of_string] in H.

Ltac open_match H := unfold_pattern H; inv_match; cbn [app] in *.

Ltac close_class :=
  cbn [forallb];
  repeat match goal with H : ?p = true |- context [?p] => rewrite H end;
  reflexivity.

Lemma link_match bef x rest cs :
  Match link_re bef x rest [] cs ->
  exists label url,
    x = js "[" ++ label ++ js "](" ++ url ++ js ")" /\
    cap 1 cs = label /\ cap 2 cs = url /\
    label <> [] /\ forallb (nec "]") label = true /\
    (JsString.startsWith url (js "http://") = true \/
     JsString.startsWith url (js "https://") = true) /\
    forallb url_class url = true.
Proof.
  intros H. open_match H;
    match goal with
    | |- context [cap 1 [(2, ?u); (1, ?l)]] => exists l, u
    end;
    (repeat split; try reflexivity; try discriminate;
     [ close_class
     | (left; reflexivity) || (right; reflexivity)
     | close_class ]).
Qed.

Lemma bold_match bef x rest cs :
  Match bold_re bef x rest [] cs ->
  exists t,
    x = js "**" ++ t ++ js "**" /\ cap 1 cs = t /\
    forallb dot t = true.
Proof.
  intros H. open_match H.
  match goal with |- context [cap 1 [(1, ?t)]] => exists t end.
  repeat split; try reflexivity; assumption.
Qed.

Lemma underscore_match bef x rest cs :
  Match underscore_re bef x rest [] cs ->
  exists t,
    x = js "_" ++ t ++ js "_" /\ cap 1 cs = t /\
    t <> [] /\ forallb (nec "_") t = true.
Proof.
  intros H. open_match H.
  match goal with |- context [cap 1 [(1, ?t)]] => exists t end.
  repeat split; try reflexivity; try discriminate.
  close_class.
Qed.

Lemma asterisk_match bef x rest cs :
  Match asterisk_re bef x rest [] cs ->
  exists c t,
    x = js "*" ++ (c :: t) ++ js "*" /\ cap 1 cs = c :: t /\
    italic_start c = true /\
    forallb (nec "*") t = true /\
    holds (eqc "*") bef = false /\ holds (eqc "*") rest = false.
Proof.
  intros H. open_match H.
  match goal with |- context [cap 1 [(1, ?c :: ?t)]] => exists c, t end.
  try rewrite app_nil_r in *.
  repeat split; try reflexivity; assumption.
Qed.

Lemma code_match bef x rest cs :
  Match code_re bef x rest [] cs ->
  exists t,
    x = js "`" ++ t ++ js "`" /\ cap 1 cs = t /\
    t <> [] /\ forallb (nec "`") t = true.
Proof.
  intros H. open_match H.
  match goal with |- context [cap 1 [(1, ?t)]] => exists t end.
  repeat split; try reflexivity; try discriminate.
  close_class.
Qed.

Lemma fence_match bef x rest cs :
  Match fence_re bef x rest [] cs ->
  exists body, x = js "```" ++ body ++ js "```" /\ capture 1 cs = Some x.
Proof.
  intros H. open_match H.
  match goal with |- context [?a :: ?b :: ?c :: ?t ++ _] => exists t end.
  split; reflexivity.
Qed.

End PatternFacts.

(** ** Facts about safe markup *)

Module MarkupFacts.

Import Inline Markup.

#[local] Hint Constructors Safe Escaped : core.

Lemma app_eq_unit (f s pre post : jsstring) (d : char) :
  f ++ s = pre ++ d :: post ->
  (exists pre', pre = f ++ pre' /\ s = pre' ++ d :: post) \/
  (exists l, f = pre ++ d :: l /\ post = l ++ s).
Proof.
  intros H. apply app_eq_app in H. destruct H as (l & [[Hf Hs]|[Hp Hs]]).
  - destruct l as [|c l]; simpl in Hs.
    + left. exists []. rewrite app_nil_r in *. subst. auto.
    + inversion Hs; subst. right. now exists l.
  - left. now exists l.
Qed.

Lemma fragments_no_delimiter f c :
  In f fragments -> In c f -> delimiter c = false.
Proof.
  assert (H : forallb (forallb (fun c => negb (delimiter c))) fragments
              = true) by reflexivity.
  intros Hf Hc. rewrite forallb_forall in H. specialize (H _ Hf).
  rewrite forallb_forall in H. specialize (H _ Hc).
  now apply negb_true_iff in H.
Qed.

Lemma fragments_tail_no_lt f c :
  In f fragments -> In c (tl f) -> eqc "<" c = false.
Proof.
  assert (H : forallb (fun f => forallb (fun c => negb (eqc "<" c)) (tl f))
                fragments = true) by reflexivity.
  intros Hf Hc. rewrite forallb_forall in H. specialize (H _ Hf).
  rewrite forallb_forall in H. specialize (H _ Hc).
  now apply negb_true_iff in H.
Qed.

Lemma Safe_app a b : Safe a -> Safe b -> Safe (a ++ b).
Proof.
  induction 1; intros Hb; simpl; auto.
  rewrite <- app_assoc. auto.
Qed.

Lemma Safe_units u s :
  forallb (fun c => negb (special c)) u = true -> Safe s -> Safe (u ++ s).
Proof.
  induction u as [|c u IH]; simpl; intros Hu Hs; auto.
  apply andb_true_iff in Hu. destruct Hu as [Hc Hu].
  apply negb_true_iff in Hc. auto.
Qed.

Lemma Escaped_Safe s : Escaped s -> Safe s.
Proof.
  induction 1; auto. apply Safe_frag; auto.
  unfold fragments. apply in_or_app. now left.
Qed.

(** Safe markup falls apart at a delimiter: no fragment holds one. *)
Lemma Safe_split x d y :
  Safe (x ++ d :: y) -> delimiter d = true -> Safe x /\ Safe y.
Proof.
  intros H Hd. remember (x ++ d :: y) as s eqn:E.
  revert x E. induction H as [|c s Hc Hs IH|f s Hf Hs IH]; intros x E.
  - destruct x; discriminate.
  - destruct x as [|c' x]; simpl in E; inversion E; subst.
    + auto.
    + destruct (IH x eq_refl). auto.
  - apply app_eq_unit in E. destruct E as [(pre' & -> & E)|(l & E & _)].
    + destruct (IH pre' E). auto.
    + subst f. rewrite (@fragments_no_delimiter _ d Hf) in Hd.
      * discriminate.
      * apply in_or_app. right. now left.
Qed.

Lemma Safe_drop d y : Safe (d :: y) -> delimiter d = true -> Safe y.
Proof. intros H Hd. now apply (Safe_split [] d y). Qed.

(** From an opening angle bracket on, safe markup is safe markup. *)
Lemma Safe_from_lt pre s :
  Safe (pre ++ code "<" :: s) -> Safe (code "<" :: s).
Proof.
  intros H. remember (pre ++ code "<" :: s) as t eqn:E.
  revert pre E. induction H as [|c t Hc Ht IH|f t Hf Ht IH]; intros pre E.
  - destruct pre; discriminate.
  - destruct pre as [|c' pre]; simpl in E; inversion E; subst.
    + discriminate.
    + eauto.
  - destruct pre as [|c pre].
    + cbn [app] in E. rewrite <- E. auto.
    + apply app_eq_unit in E. destruct E as [(pre' & _ & E)|(l & E & _)].
      * eauto.
      * subst f. simpl in Hf.
        pose proof (@fragments_tail_no_lt _ (code "<") Hf) as Hlt.
        simpl in Hlt. discriminate Hlt.
        apply in_or_app. right. now left.
Qed.

(** No [<script] in safe markup. *)
Lemma Safe_no_script t : Safe t -> ~ occurs (js "<script") t.
Proof.
  intros H (pre & post & E). subst t.
  apply Safe_from_lt in H. inversion H as [|c s Hc Hs E|f s Hf Hs E].
  - discriminate.
  - unfold fragments, entities, tag_pieces in Hf. simpl in Hf.
    repeat (destruct Hf as [Hf|Hf]; [subst f; discriminate|]).
    contradiction.
Qed.

End MarkupFacts.

(** ** Facts about the inline formatter *)

Module InlineFacts.

Import MatchSpec RegExpFacts ReplaceFacts PatternFacts.
Import Inline Markup MarkupFacts.

(** *** The replacement texts *)

Lemma link_expand m cs :
  expand (groups link_re) link_tmpl m cs =
  link_open ++ cap 2 cs ++ link_attrs ++ cap 1 cs ++ link_close.
Proof. reflexivity. Qed.

Lemma bold_expand m cs :
  expand (groups bold_re) bold_tmpl m cs =
  js "<strong>" ++ cap 1 cs ++ js "</strong>".
Proof. reflexivity. Qed.

Lemma underscore_expand m cs :
  expand (groups underscore_re) em_tmpl m cs =
  js "<em>" ++ cap 1 cs ++ js "</em>".
Proof. reflexivity. Qed.

Lemma asterisk_expand m cs :
  expand (groups asterisk_re) em_tmpl m cs =
  js "<em>" ++ cap 1 cs ++ js "</em>".
Proof. reflexivity. Qed.

Lemma code_expand m cs :
  expand (groups code_re) code_tmpl m cs =
  code_open ++ cap 1 cs ++ code_close.
Proof. reflexivity. Qed.

(** *** No pattern of the formatter matches the empty string *)

Lemma nonempty_of_match r :
  (forall bef x rest cs, Match r bef x rest [] cs -> x <> []) ->
  nonempty r.
Proof.
  intros H bef aft len cs He. apply exec_sound in He.
  destruct He as (x & rest & _ & -> & Hm). apply H in Hm.
  destruct x; [congruence | discriminate].
Qed.

Lemma link_nonempty : nonempty link_re.
Proof.
  apply nonempty_of_match. intros bef x rest cs H.
  apply link_match in H. destruct H as (l & u & -> & _). discriminate.
Qed.

Lemma bold_nonempty : nonempty bold_re.
Proof.
  apply nonempty_of_match. intros bef x rest cs H.
  apply bold_match in H. destruct H as (t & -> & _). discriminate.
Qed.

Lemma underscore_nonempty : nonempty underscore_re.
Proof.
  apply nonempty_of_match. intros bef x rest cs H.
  apply underscore_match in H. destruct H as (t & -> & _). discriminate.
Qed.

Lemma asterisk_nonempty : nonempty asterisk_re.
Proof.
  apply nonempty_of_match. intros bef x rest cs H.
  apply asterisk_match in H. destruct H as (c & t & -> & _). discriminate.
Qed.

Lemma code_nonempty : nonempty code_re.
Proof.
  apply nonempty_of_match. intros bef x rest cs H.
  apply code_match in H. destruct H as (t & -> & _). discriminate.
Qed.

(** *** Each pass keeps safe markup safe *)

Lemma Repl_Safe r tmpl bef aft out :
  keeps_safe r tmpl ->
  Repl r tmpl bef aft out ->
  forall pre, Safe (pre ++ aft) -> Safe (pre ++ out).
Proof.
  intros Hk HR. induction HR; intros pre Hs.
  - assumption.
  - change (c :: out) with ([c] ++ out). rewrite app_assoc.
    apply IHHR. rewrite <- app_assoc. exact Hs.
  - destruct (Hk _ _ _ _ _ H0 Hs) as (Hp & He & Hr).
    apply Safe_app; [exact Hp|]. apply Safe_app; [exact He|].
    apply (IHHR []). exact Hr.
Qed.

Lemma replaceAll_Safe r tmpl s :
  nonempty r -> keeps_safe r tmpl -> Safe s -> Safe (replaceAll r tmpl s).
Proof.
  intros Hn Hk Hs.
  exact (Repl_Safe Hk (replaceAll_Repl tmpl s Hn) [] Hs).
Qed.

Lemma Safe_tag f s : In f tag_pieces -> Safe s -> Safe (f ++ s).
Proof.
  intros Hf. apply Safe_frag. unfold fragments. apply in_or_app. now right.
Qed.

Ltac tag := apply Safe_tag; [simpl; tauto|].

Lemma link_keeps_safe : keeps_safe link_re link_tmpl.
Proof.
  intros bef x rest cs pre He Hs. apply exec_sound_at in He.
  apply link_match in He.
  destruct He as (l & u & -> & Hl & Hu & _). rewrite link_expand, Hl, Hu.
  assert (E : pre ++ (js "[" ++ l ++ js "](" ++ u ++ js ")") ++ rest =
              pre ++ code "[" :: l ++ code "]" :: code "(" :: u ++
              code ")" :: rest).
  { simpl. repeat (rewrite <- app_assoc; simpl). reflexivity. }
  rewrite E in Hs. clear E.
  apply Safe_split in Hs; [destruct Hs as [Hpre Hs] | reflexivity].
  apply Safe_split in Hs; [destruct Hs as [Hlabel Hs] | reflexivity].
  apply Safe_drop in Hs; [| reflexivity].
  apply Safe_split in Hs; [destruct Hs as [Hurl Hrest] | reflexivity].
  repeat split; try assumption.
  tag. apply Safe_app; [exact Hurl|].
  change link_attrs
    with ((dq ++ js " target=" ++ dq ++ js "_") ++ link_attrs_end).
  rewrite <- app_assoc. apply Safe_units; [reflexivity|].
  tag. apply Safe_app; [exact Hlabel|].
  rewrite <- (app_nil_r link_close). tag. constructor.
Qed.

(** The passes that wrap the text between two delimiters in a tag. *)
Lemma wrap_keeps_safe (open close d1 d2 t pre rest : jsstring) :
  In open tag_pieces -> In close tag_pieces ->
  forallb delimiter d1 = true -> forallb delimiter d2 = true ->
  d1 <> [] -> d2 <> [] ->
  Safe (pre ++ (d1 ++ t ++ d2) ++ rest) ->
  Safe pre /\ Safe (open ++ t ++ close) /\ Safe rest.
Proof.
  intros Ho Hc Hd1 Hd2 Hn1 Hn2 Hs.
  assert (drop : forall d s, forallb delimiter d = true ->
                             Safe (d ++ s) -> Safe s).
  { induction d as [|c d IH]; simpl; intros s Hd H; [exact H|].
    apply andb_true_iff in Hd. destruct Hd as [Hc' Hd].
    apply IH; [exact Hd|]. now apply Safe_drop in H. }
  destruct d1 as [|a d1]; [congruence|].
  destruct d2 as [|b d2]; [congruence|].
  simpl in Hd1, Hd2.
  apply andb_true_iff in Hd1. destruct Hd1 as [Ha Hd1].
  apply andb_true_iff in Hd2. destruct Hd2 as [Hb Hd2].
  simpl in Hs. rewrite <- !app_assoc in Hs. simpl in Hs.
  apply Safe_split in Hs; [destruct Hs as [Hpre Hs] | exact Ha].
  apply drop in Hs; [| exact Hd1].
  apply Safe_split in Hs; [destruct Hs as [Ht Hs] | exact Hb].
  apply drop in Hs; [| exact Hd2].
  repeat split; try assumption.
  apply Safe_tag; [exact Ho|]. apply Safe_app; [exact Ht|].
  rewrite <- (app_nil_r close). apply Safe_tag; [exact Hc | constructor].
Qed.

Lemma bold_keeps_safe : keeps_safe bold_re bold_tmpl.
Proof.
  intros bef x rest cs pre He Hs. apply exec_sound_at in He.
  apply bold_match in He. destruct He as (t & -> & Ht & _).
  rewrite bold_expand, Ht.
  apply wrap_keeps_safe with (open := js "<strong>") (close := js "</strong>")
    in Hs; try reflexivity; try discriminate; simpl; tauto.
Qed.

Lemma underscore_keeps_safe : keeps_safe underscore_re em_tmpl.
Proof.
  intros bef x rest cs pre He Hs. apply exec_sound_at in He.
  apply underscore_match in He. destruct He as (t & -> & Ht & _).
  rewrite underscore_expand, Ht.
  apply wrap_keeps_safe with (open := js "<em>") (close := js "</em>")
    in Hs; try reflexivity; try discriminate; simpl; tauto.
Qed.

Lemma asterisk_keeps_safe : keeps_safe asterisk_re em_tmpl.
Proof.
  intros bef x rest cs pre He Hs. apply exec_sound_at in He.
  apply asterisk_match in He. destruct He as (c & t & -> & Ht & _).
  rewrite asterisk_expand, Ht.
  apply wrap_keeps_safe with (open := js "<em>") (close := js "</em>")
    in Hs; try reflexivity; try discriminate; simpl; tauto.
Qed.

Lemma code_keeps_safe : keeps_safe code_re code_tmpl.
Proof.
  intros bef x rest cs pre He Hs. apply exec_sound_at in He.
  apply code_match in He. destruct He as (t & -> & Ht & _).
  rewrite code_expand, Ht.
  apply wrap_keeps_safe with (open := code_open) (close := code_close)
    in Hs; try reflexivity; try discriminate; simpl; tauto.
Qed.

(** *** The escape pre-pass *)

Lemma exec_lit_unit a bef aft :
  exec (lit (String a EmptyString)) bef aft =
  match aft with
  | c :: _ => if eqc a c then Some (1, []) else None
  | [] => None
  end.
Proof.
  unfold exec, eqc, code.
  cbn [lit lit1 list_ascii_of_string fold_right run after before caps].
  destruct aft as [|c aft]; [reflexivity|].
  destruct (N_of_ascii a =? c)%N; [|reflexivity].
  cbn [before caps length]. do 2 f_equal. lia.
Qed.

(** Replacing one literal unit by a text without [$] works unit by unit. *)
Lemma replaceAll_lit_unit a tmpl s :
  (forall m cs, expand 0 tmpl m cs = tmpl) ->
  replaceAll (lit (String a EmptyString)) tmpl s =
  flat_map (fun c => if eqc a c then tmpl else [c]) s.
Proof.
  intros Ht. unfold replaceAll.
  assert (G : forall bef,
             replaceFrom (lit (String a EmptyString)) tmpl 0 bef s =
             flat_map (fun c => if eqc a c then tmpl else [c]) s);
    [|apply G].
  induction s as [|c s IH]; intros bef.
  - cbn [replaceFrom]. rewrite exec_lit_unit. reflexivity.
  - cbn [replaceFrom flat_map]. rewrite exec_lit_unit.
    destruct (eqc a c).
    + change (groups (lit (String a EmptyString))) with 0.
      rewrite Ht, IH. reflexivity.
    + rewrite IH. reflexivity.
Qed.

Lemma escapeHtml_units s : escapeHtml s = flat_map escape_unit s.
Proof.
  unfold escapeHtml, amp_re, lt_re, gt_re.
  rewrite !replaceAll_lit_unit by reflexivity.
  induction s as [|c s IH]; [reflexivity|].
  cbn [flat_map]. rewrite !flat_map_app, IH. f_equal.
  unfold escape_unit.
  destruct (eqc "&" c) eqn:E1; [reflexivity|].
  cbn [flat_map app].
  destruct (eqc "<" c) eqn:E2; [reflexivity|].
  cbn [flat_map app]. destruct (eqc ">" c) eqn:E3; reflexivity.
Qed.

Lemma escapeHtml_Escaped s : Escaped (escapeHtml s).
Proof.
  rewrite escapeHtml_units. induction s as [|c s IH]; [constructor|].
  cbn [flat_map]. unfold escape_unit.
  destruct (eqc "&" c) eqn:E1;
    [apply Escaped_entity; [simpl; tauto | exact IH]|].
  destruct (eqc "<" c) eqn:E2;
    [apply Escaped_entity; [simpl; tauto | exact IH]|].
  destruct (eqc ">" c) eqn:E3;
    [apply Escaped_entity; [simpl; tauto | exact IH]|].
  apply Escaped_unit; [|exact IH]. unfold special. now rewrite E1, E2, E3.
Qed.

(** *** The whole formatter *)

Lemma applyInlineFormatting_Safe text : Safe (applyInlineFormatting text).
Proof.
  unfold applyInlineFormatting, codePass, asteriskPass, underscorePass,
    boldPass, linkPass.
  apply replaceAll_Safe; [apply code_nonempty | apply code_keeps_safe |].
  apply replaceAll_Safe;
    [apply asterisk_nonempty | apply asterisk_keeps_safe |].
  apply replaceAll_Safe;
    [apply underscore_nonempty | apply underscore_keeps_safe |].
  apply replaceAll_Safe; [apply bold_nonempty | apply bold_keeps_safe |].
  apply replaceAll_Safe; [apply link_nonempty | apply link_keeps_safe |].
  apply Escaped_Safe, escapeHtml_Escaped.
Qed.

End InlineFacts.

(** ** More on the matcher: longest repetitions, looking forward only *)

Module ForwardFacts.

Import MatchSpec RegExpFacts ReplaceFacts.

(** A greedy repetition takes all of a run when the rest of the pattern
    accepts there. *)
Lemma rep_greedy_max (A : Type) p (k : state -> option A) x :
  forall bef rest cs res,
    forallb p x = true -> holds p rest = false ->
    k (State (rev x ++ bef) rest cs) = Some res ->
    rep true p k bef (x ++ rest) cs = Some res.
Proof.
  induction x as [|c x IH]; intros bef rest cs res Hx Hr Hk.
  - simpl in *. destruct rest as [|c rest]; simpl in *; [exact Hk|].
    now rewrite Hr.
  - simpl in Hx. apply andb_true_iff in Hx. destruct Hx as [Hc Hx].
    cbn [app rep]. rewrite Hc.
    rewrite (IH (c :: bef) rest cs res Hx Hr); [reflexivity|].
    simpl in Hk. now rewrite <- app_assoc in Hk.
Qed.

Lemma consumed_forward p p' b1 b2 a1 a2 c1 c2 a1' a2' c1' c2' :
  length p <= length p' ->
  consumed (State (p ++ b1) a1 c1) (State (p' ++ b1) a1' c1') =
  consumed (State (p ++ b2) a2 c2) (State (p' ++ b2) a2' c2').
Proof.
  intros Hl. unfold consumed. cbn [before]. rewrite !length_app.
  replace (length p' + length b1 - (length p + length b1))
    with (length p' - length p) by lia.
  replace (length p' + length b2 - (length p + length b2))
    with (length p' - length p) by lia.
  rewrite !firstn_app.
  replace (length p' - length p - length p') with 0 by lia.
  reflexivity.
Qed.

Section Forward.

Variables A1 A2 : Type.
Variable R : A1 -> A2 -> Prop.
Variables b1 b2 : jsstring.

#[local] Abbreviation related := (ForwardSpec.related R).
#[local] Abbreviation agree := (ForwardSpec.agree R b1 b2).

Lemma agree_le n m k1 k2 : n <= m -> agree n k1 k2 -> agree m k1 k2.
Proof. intros Hle H p rest cs Hp. apply H. lia. Qed.

Lemma rep_forward g q aft :
  forall p cs k1 k2,
    agree (length p) k1 k2 ->
    related (rep g q k1 (p ++ b1) aft cs) (rep g q k2 (p ++ b2) aft cs).
Proof.
  induction aft as [|c aft IH]; intros p cs k1 k2 Hk; cbn [rep].
  - now apply Hk.
  - pose proof (Hk p (c :: aft) cs (le_n _)) as H0.
    assert (H1 : related (rep g q k1 ((c :: p) ++ b1) aft cs)
                         (rep g q k2 ((c :: p) ++ b2) aft cs)).
    { apply IH. eapply agree_le; [|exact Hk]. simpl. lia. }
    cbn [app] in H1.
    destruct (q c); [|exact H0]. destruct g.
    + destruct (rep true q k1 (c :: p ++ b1) aft cs),
               (rep true q k2 (c :: p ++ b2) aft cs);
        simpl in H1; try contradiction; [exact H1 | exact H0].
    + destruct (k1 (State (p ++ b1) (c :: aft) cs)),
               (k2 (State (p ++ b2) (c :: aft) cs));
        simpl in H0; try contradiction; [exact H0 | exact H1].
Qed.

Lemma run_forward r :
  forward r = true ->
  forall p aft cs k1 k2,
    agree (length p) k1 k2 ->
    related (run r (State (p ++ b1) aft cs) k1)
            (run r (State (p ++ b2) aft cs) k2).
Proof.
  induction r as [|cl|r1 IHr1 r2 IHr2|r1 IHr1 r2 IHr2|g cl|i r IHr| | |cl|cl];
    intros Hf q aft cs k1 k2 Hk; cbn [run before after caps];
    simpl in Hf; try discriminate.
  - now apply Hk.
  - destruct aft as [|c aft]; [exact I|].
    destruct (cl c); [|exact I].
    apply (Hk (c :: q)). simpl. lia.
  - apply andb_true_iff in Hf. destruct Hf as [Hf1 Hf2].
    apply IHr1; [exact Hf1|]. intros q' rest cs' Hq.
    apply IHr2; [exact Hf2|]. eapply agree_le; [|exact Hk]. lia.
  - apply andb_true_iff in Hf. destruct Hf as [Hf1 Hf2].
    pose proof (IHr1 Hf1 q aft cs k1 k2 Hk) as H1.
    pose proof (IHr2 Hf2 q aft cs k1 k2 Hk) as H2.
    destruct (run r1 (State (q ++ b1) aft cs) k1),
             (run r1 (State (q ++ b2) aft cs) k2);
      simpl in H1; try contradiction; [exact H1 | exact H2].
  - now apply rep_forward.
  - apply IHr; [exact Hf|]. intros q' rest cs' Hq. cbn [before after caps].
    rewrite (@consumed_forward q q' b1 b2 aft aft cs cs rest rest cs' cs')
      by exact Hq.
    now apply Hk.
  - destruct aft; [now apply Hk | exact I].
  - destruct (holds cl aft); [exact I|]. now apply Hk.
Qed.

End Forward.

(** A forward pattern matches the same whatever came before. *)
Lemma exec_forward r b1 b2 aft :
  forward r = true -> exec r b1 aft = exec r b2 aft.
Proof.
  intros Hf. unfold exec.
  pose proof (@run_forward state state
    (fun s1 s2 => length (before s1) - length b1 =
                  length (before s2) - length b2 /\ caps s1 = caps s2)
    b1 b2 r Hf [] aft [] (fun st => Some st) (fun st => Some st)) as H.
  cbn [app] in H.
  destruct (run r (State b1 aft []) (fun st => Some st)),
           (run r (State b2 aft []) (fun st => Some st)); simpl in H.
  - destruct H as [-> ->]; [|reflexivity].
    intros p rest cs _. simpl. rewrite !length_app. split; [lia|reflexivity].
  - exfalso. apply H. intros p rest cs _. simpl. rewrite !length_app.
    split; [lia|reflexivity].
  - exfalso. apply H. intros p rest cs _. simpl. rewrite !length_app.
    split; [lia|reflexivity].
  - reflexivity.
Qed.

Lemma replaceFrom_forward r tmpl aft :
  forward r = true ->
  forall n b1 b2, replaceFrom r tmpl n b1 aft = replaceFrom r tmpl n b2 aft.
Proof.
  intros Hf. induction aft as [|c aft IH]; intros n b1 b2.
  - destruct n; cbn [replaceFrom]; [|reflexivity].
    now rewrite (@exec_forward r b1 b2 [] Hf).
  - destruct n; cbn [replaceFrom]; [|apply IH].
    rewrite (@exec_forward r b1 b2 (c :: aft) Hf).
    destruct (exec r b2 (c :: aft)) as [[[|len] cs]|];
      now rewrite (IH _ (c :: b1) (c :: b2)).
Qed.

(** *** Unfolding the scan of [replaceAll] *)

Lemma replaceFrom_copy r tmpl start pre :
  starts_with r start ->
  forallb (fun c => negb (start c)) pre = true ->
  forall bef aft,
    replaceFrom r tmpl 0 bef (pre ++ aft) =
    pre ++ replaceFrom r tmpl 0 (rev pre ++ bef) aft.
Proof.
  intros Hs. induction pre as [|c pre IH]; intros Hp bef aft.
  - reflexivity.
  - simpl in Hp. apply andb_true_iff in Hp. destruct Hp as [Hc Hp].
    cbn [app replaceFrom].
    destruct (exec r bef (c :: pre ++ aft)) as [[len cs]|] eqn:He.
    + apply Hs in He. simpl in He. rewrite He in Hc. discriminate.
    + rewrite IH by exact Hp. simpl. now rewrite <- app_assoc.
Qed.

Lemma replaceFrom_hit r tmpl bef x rest cs :
  x <> [] ->
  exec r bef (x ++ rest) = Some (length x, cs) ->
  replaceFrom r tmpl 0 bef (x ++ rest) =
  expand (groups r) tmpl x cs ++ replaceFrom r tmpl 0 (rev x ++ bef) rest.
Proof.
  intros Hx He. destruct x as [|c x]; [congruence|].
  cbn [app replaceFrom] in *. rewrite He. cbn [length].
  rewrite replaceFrom_skip by (rewrite length_app; lia).
  rewrite firstn_app, Nat.sub_diag, firstn_all, skipn_app, Nat.sub_diag,
    skipn_all. simpl. rewrite !app_nil_r, <- app_assoc.
  change (c :: firstn (length x) (x ++ rest))
    with (firstn (S (length x)) (c :: x ++ rest)).
  change (c :: x ++ rest) with ((c :: x) ++ rest).
  change (S (length x)) with (length (c :: x)).
  rewrite firstn_app, Nat.sub_diag, firstn_all. simpl.
  now rewrite app_nil_r.
Qed.

End ForwardFacts.

(** ** Where the passes of the formatter match *)

Module PassFacts.

Import MatchSpec RegExpFacts ReplaceFacts PatternFacts ForwardFacts.
Import Inline Markup InlineFacts.

Lemma starts_with_of_match r start :
  (forall bef x rest cs, Match r bef x rest [] cs -> holds start x = true) ->
  starts_with r start.
Proof.
  intros H bef aft len cs He. apply exec_sound in He.
  destruct He as (x & rest & -> & _ & Hm). apply H in Hm.
  destruct x; [discriminate | exact Hm].
Qed.

Lemma link_starts : starts_with link_re (eqc "[").
Proof.
  apply starts_with_of_match. intros bef x rest cs H.
  apply link_match in H. destruct H as (l & u & -> & _). reflexivity.
Qed.

Lemma bold_starts : starts_with bold_re (eqc "*").
Proof.
  apply starts_with_of_match. intros bef x rest cs H.
  apply bold_match in H. destruct H as (t & -> & _). reflexivity.
Qed.

Lemma underscore_starts : starts_with underscore_re (eqc "_").
Proof.
  apply starts_with_of_match. intros bef x rest cs H.
  apply underscore_match in H. destruct H as (t & -> & _). reflexivity.
Qed.

Lemma asterisk_starts : starts_with asterisk_re (eqc "*").
Proof.
  apply starts_with_of_match. intros bef x rest cs H.
  apply asterisk_match in H. destruct H as (c & t & -> & _). reflexivity.
Qed.

Lemma code_starts : starts_with code_re (eqc "`").
Proof.
  apply starts_with_of_match. intros bef x rest cs H.
  apply code_match in H. destruct H as (t & -> & _). reflexivity.
Qed.

(** A pass leaves alone a text in which no match can start. *)
Lemma replaceAll_untouched r tmpl start s :
  starts_with r start ->
  forallb (fun c => negb (start c)) s = true ->
  replaceAll r tmpl s = s.
Proof.
  intros Hs Hn. unfold replaceAll.
  rewrite <- (app_nil_r s) at 1.
  rewrite (replaceFrom_copy tmpl s Hs Hn). cbn [replaceFrom].
  destruct (exec r (rev s ++ []) []) as [[len cs]|] eqn:He.
  - apply Hs in He. discriminate.
  - apply app_nil_r.
Qed.

(** The inline-code pattern at a backtick that opens a closed,
    non-empty run without backticks. *)
Lemma code_exec bef t post :
  t <> [] -> forallb (nec "`") t = true ->
  exec code_re bef (js "`" ++ t ++ js "`" ++ post) =
  Some (length (js "`" ++ t ++ js "`"), [(1, t)]).
Proof.
  intros Ht Hc. destruct t as [|c t]; [congruence|].
  simpl in Hc. apply andb_true_iff in Hc. destruct Hc as [Hc Ht'].
  unfold exec, code_re, lit, lit1, plus.
  cbn [list_ascii_of_string fold_right run app js map before after caps].
  rewrite N.eqb_refl. cbn [before after caps]. rewrite Hc.
  erewrite rep_greedy_max; [| exact Ht' | reflexivity | ].
  2:{ cbn [before after caps].
      change (rev t ++ c :: N_of_ascii "`" :: bef)
        with (rev t ++ [c] ++ N_of_ascii "`" :: bef).
      rewrite app_assoc.
      change (rev t ++ [c]) with (rev (c :: t)).
      rewrite consumed_spec. rewrite N.eqb_refl. reflexivity. }
  cbn [before caps]. apply f_equal.
  apply (f_equal (fun n => (n, [(1, c :: t)]))).
  cbn [length]. rewrite !length_app, length_rev. cbn [length]. lia.
Qed.

(** The inline-code pass at the first backtick pair of a text. *)
Lemma codePass_first pre t post :
  forallb (nec "`") pre = true ->
  t <> [] -> forallb (nec "`") t = true ->
  codePass (pre ++ js "`" ++ t ++ js "`" ++ post) =
  pre ++ code_open ++ t ++ code_close ++ codePass post.
Proof.
  intros Hpre Ht Hc. unfold codePass, replaceAll.
  rewrite (replaceFrom_copy code_tmpl pre code_starts) by exact Hpre.
  f_equal.
  replace (js "`" ++ t ++ js "`" ++ post)
    with ((js "`" ++ t ++ js "`") ++ post)
    by (simpl; now rewrite <- app_assoc).
  rewrite (@replaceFrom_hit code_re code_tmpl _ _ post [(1, t)]).
  - rewrite code_expand. cbn [cap Nat.eqb].
    rewrite <- !app_assoc. do 3 f_equal.
    apply replaceFrom_forward. reflexivity.
  - discriminate.
  - replace ((js "`" ++ t ++ js "`") ++ post)
      with (js "`" ++ t ++ js "`" ++ post)
      by (simpl; now rewrite <- app_assoc).
    now apply code_exec.
Qed.

End PassFacts.

(** ** The link rule *)

Module LinkFacts.

Import MatchSpec RegExpFacts ReplaceFacts PatternFacts ForwardFacts.
Import Inline Markup InlineFacts PassFacts.

Lemma startsWith_app s p z :
  JsString.startsWith s p = true -> JsString.startsWith (s ++ z) p = true.
Proof.
  revert s. induction p as [|a p IH]; intros s H; [reflexivity|].
  destruct s as [|b s]; simpl in *; [discriminate|].
  apply andb_true_iff in H. destruct H as [-> H]. simpl. auto.
Qed.

Lemma startsWith_prefix s p : JsString.startsWith (p ++ s) p = true.
Proof. induction p as [|a p IH]; simpl; [|rewrite N.eqb_refl]; auto. Qed.

(** A prefix without the unit [d] of a text cut at [d] lies before the
    cut. *)
Lemma startsWith_before_unit a s d post h :
  forallb (nec a) h = true -> d = code a ->
  JsString.startsWith (s ++ d :: post) h = true ->
  JsString.startsWith s h = true.
Proof.
  intros Hh ->. revert s. induction h as [|b h IH]; intros s H;
    [reflexivity|].
  simpl in Hh. apply andb_true_iff in Hh. destruct Hh as [Hb Hh].
  destruct s as [|c s]; simpl in H.
  - apply andb_true_iff in H. destruct H as [H _].
    apply N.eqb_eq in H. subst b. unfold nec, eqc in Hb.
    rewrite N.eqb_refl in Hb. discriminate.
  - apply andb_true_iff in H. destruct H as [H1 H2]. simpl.
    rewrite H1. simpl. auto.
Qed.

(** A text is cut at the first [d] in one way only. *)
Lemma first_unit_unique a (x x' y y' : jsstring) :
  forallb (nec a) x = true -> forallb (nec a) x' = true ->
  x ++ code a :: y = x' ++ code a :: y' -> x = x' /\ y = y'.
Proof.
  revert x'. induction x as [|c x IH]; intros [|c' x'] Hx Hx' E;
    simpl in *.
  - inversion E. auto.
  - inversion E; subst. apply andb_true_iff in Hx'. destruct Hx' as [H _].
    unfold nec, eqc in H. rewrite N.eqb_refl in H. discriminate.
  - inversion E; subst. apply andb_true_iff in Hx. destruct Hx as [H _].
    unfold nec, eqc in H. rewrite N.eqb_refl in H. discriminate.
  - inversion E; subst.
    apply andb_true_iff in Hx. apply andb_true_iff in Hx'.
    destruct (IH x') as [-> ->]; tauto.
Qed.

(** No link starts at a bracket whose target does not begin with
    [http://] or [https://]. *)
Lemma link_rejects bef label url post :
  forallb (nec "]") label = true ->
  JsString.startsWith url (js "http://") = false ->
  JsString.startsWith url (js "https://") = false ->
  exec link_re bef (js "[" ++ label ++ js "](" ++ url ++ js ")" ++ post)
  = None.
Proof.
  intros Hl H1 H2.
  destruct (exec link_re bef _) as [[len cs]|] eqn:He; [exfalso|reflexivity].
  apply exec_sound in He. destruct He as (x & rest & E & _ & Hm).
  apply link_match in Hm.
  destruct Hm as (l & u & -> & _ & _ & _ & Hl' & Hu & Hc).
  simpl in E. inversion E as [E']. clear E.
  rewrite <- !app_assoc in E'. simpl in E'.
  apply (@first_unit_unique "]") in E'; [|assumption|assumption].
  destruct E' as [_ E]. inversion E as [E']. clear E.
  rewrite <- app_assoc in E'. simpl in E'.
  assert (G : forall h, forallb (nec ")") h = true ->
              JsString.startsWith u h = true ->
              JsString.startsWith url h = true).
  { intros h Hh Hs. apply (@startsWith_before_unit ")" url _ post h Hh eq_refl).
    replace (url ++ code ")" :: post) with (u ++ code ")" :: rest)
      by (symmetry; exact E').
    now apply startsWith_app. }
  destruct Hu as [Hu|Hu]; apply G in Hu; try reflexivity; congruence.
Qed.

(** What the link rule replaces, and by what. *)
Lemma link_accepts bef aft len cs :
  exec link_re bef aft = Some (len, cs) ->
  exists label url rest,
    aft = js "[" ++ label ++ js "](" ++ url ++ js ")" ++ rest /\
    (JsString.startsWith url (js "http://") = true \/
     JsString.startsWith url (js "https://") = true) /\
    forallb url_class url = true /\
    expand (groups link_re) link_tmpl (firstn len aft) cs =
    link_open ++ url ++ link_attrs ++ label ++ link_close.
Proof.
  intros He. apply exec_sound in He. destruct He as (x & rest & E & _ & Hm).
  apply link_match in Hm.
  destruct Hm as (l & u & -> & Hl & Hu & _ & _ & Hh & Hc).
  exists l, u, rest. rewrite link_expand, Hl, Hu. subst aft.
  repeat split; try assumption.
  simpl. repeat (rewrite <- app_assoc; simpl). reflexivity.
Qed.

(** The link rule leaves alone a line whose only bracket opens a
    construct with another target. *)
Lemma linkPass_rejects pre label url post :
  forallb (nec "[") (pre ++ label ++ url ++ post) = true ->
  forallb (nec "]") label = true ->
  JsString.startsWith url (js "http://") = false ->
  JsString.startsWith url (js "https://") = false ->
  linkPass (pre ++ js "[" ++ label ++ js "](" ++ url ++ js ")" ++ post) =
  pre ++ js "[" ++ label ++ js "](" ++ url ++ js ")" ++ post.
Proof.
  intros Hb Hl H1 H2.
  rewrite !forallb_app in Hb.
  apply andb_true_iff in Hb. destruct Hb as [Hpre Hb].
  apply andb_true_iff in Hb. destruct Hb as [Hlab Hb].
  apply andb_true_iff in Hb. destruct Hb as [Hurl Hpost].
  unfold linkPass, replaceAll.
  rewrite (replaceFrom_copy link_tmpl pre link_starts) by exact Hpre.
  f_equal.
  set (tail := label ++ js "](" ++ url ++ js ")" ++ post).
  change (js "[" ++ tail) with (code "[" :: tail).
  assert (He : exec link_re (rev pre ++ []) (code "[" :: tail) = None)
    by (apply link_rejects; assumption).
  cbn [replaceFrom]. rewrite He. f_equal.
  rewrite <- (app_nil_r tail) at 1.
  rewrite (replaceFrom_copy link_tmpl tail link_starts).
  - cbn [replaceFrom].
    destruct (exec link_re _ []) as [[len cs]|] eqn:He'.
    + apply link_starts in He'. discriminate.
    + apply app_nil_r.
  - change (fun c => negb (eqc "[" c)) with (nec "[").
    unfold tail. rewrite !forallb_app.
    now rewrite Hlab, Hurl, Hpost.
Qed.

End LinkFacts.

(** ** Escaping happens once *)

Module EscapeFacts.

Import MatchSpec RegExpFacts ReplaceFacts PatternFacts ForwardFacts.
Import Inline Markup InlineFacts PassFacts LinkFacts.

Lemma escapeHtml_app a b : escapeHtml (a ++ b) = escapeHtml a ++ escapeHtml b.
Proof. rewrite !escapeHtml_units. apply flat_map_app. Qed.

Lemma escape_unit_plain c : special c = false -> escape_unit c = [c].
Proof.
  unfold special, escape_unit. intros H.
  apply orb_false_iff in H. destruct H as [H H3].
  apply orb_false_iff in H. destruct H as [H1 H2].
  now rewrite H1, H2, H3.
Qed.

Lemma escapeHtml_plain s :
  forallb (fun c => negb (special c)) s = true -> escapeHtml s = s.
Proof.
  rewrite escapeHtml_units. induction s as [|c s IH]; [reflexivity|].
  simpl. intros H. apply andb_true_iff in H. destruct H as [Hc Hs].
  apply negb_true_iff in Hc. rewrite (escape_unit_plain _ Hc), (IH Hs).
  reflexivity.
Qed.

(** Escaping brings in no unit of a class that the entities avoid. *)
Lemma escapeHtml_class (q : char -> bool) s :
  forallb (forallb q) entities = true ->
  forallb q s = true -> forallb q (escapeHtml s) = true.
Proof.
  intros Hq. rewrite escapeHtml_units.
  unfold entities in Hq. cbn [forallb] in Hq.
  apply andb_true_iff in Hq. destruct Hq as [Ha Hq].
  apply andb_true_iff in Hq. destruct Hq as [Hl Hq].
  apply andb_true_iff in Hq. destruct Hq as [Hg _].
  induction s as [|c s IH]; [reflexivity|].
  simpl. intros H. apply andb_true_iff in H. destruct H as [Hc Hs].
  rewrite forallb_app, (IH Hs), andb_true_r. unfold escape_unit.
  destruct (eqc "&" c); [exact Ha|].
  destruct (eqc "<" c); [exact Hl|].
  destruct (eqc ">" c); [exact Hg|].
  simpl. now rewrite Hc.
Qed.

(** An escaped text begins with a text without ampersand only if the raw
    text does. *)
Lemma escapeHtml_startsWith s h :
  forallb (nec "&") h = true ->
  JsString.startsWith (escapeHtml s) h = true ->
  JsString.startsWith s h = true.
Proof.
  rewrite escapeHtml_units. revert s.
  induction h as [|a h IH]; intros s Hh H; [reflexivity|].
  simpl in Hh. apply andb_true_iff in Hh. destruct Hh as [Ha Hh].
  destruct s as [|c s]; [discriminate|].
  cbn [flat_map] in H. unfold escape_unit at 1 in H.
  assert (Hamp : forall t, JsString.startsWith (code "&" :: t) (a :: h)
                           = false).
  { intros t. cbn [JsString.startsWith].
    replace (a =? code "&")%N with false; [reflexivity|].
    symmetry. rewrite N.eqb_sym. unfold nec, eqc in Ha.
    now apply negb_true_iff in Ha. }
  destruct (eqc "&" c).
  { pose proof (Hamp (js "amp;" ++ flat_map escape_unit s)) as Hx.
    change (JsString.startsWith (js "&amp;" ++ flat_map escape_unit s)
              (a :: h) = false) in Hx. cbv iota in H. congruence. }
  destruct (eqc "<" c).
  { pose proof (Hamp (js "lt;" ++ flat_map escape_unit s)) as Hx.
    change (JsString.startsWith (js "&lt;" ++ flat_map escape_unit s)
              (a :: h) = false) in Hx. cbv iota in H. congruence. }
  destruct (eqc ">" c).
  { pose proof (Hamp (js "gt;" ++ flat_map escape_unit s)) as Hx.
    change (JsString.startsWith (js "&gt;" ++ flat_map escape_unit s)
              (a :: h) = false) in Hx. cbv iota in H. congruence. }
  simpl in H |- *. apply andb_true_iff in H. destruct H as [-> H].
  simpl. auto.
Qed.

(** *** Counting ampersands *)

Lemma count_app p a b : count p (a ++ b) = count p a + count p b.
Proof. unfold count. now rewrite filter_app, length_app. Qed.











End EscapeFacts.

(** ** Whole lines through the formatter *)

Module LineFacts.

Import MatchSpec RegExpFacts ReplaceFacts PatternFacts ForwardFacts.
Import Inline Markup InlineFacts PassFacts LinkFacts EscapeFacts.

#[local] Unset Implicit Arguments.

Lemma forallb_weaken (p q : char -> bool) s :
  (forall c, p c = true -> q c = true) ->
  forallb p s = true -> forallb q s = true.
Proof.
  intros Hpq. induction s as [|c s IH]; simpl; [reflexivity|].
  intros H. apply andb_true_iff in H. destruct H as [Hc Hs].
  now rewrite (Hpq _ Hc), (IH Hs).
Qed.

Lemma escapeHtml_nonempty s : s <> [] -> escapeHtml s <> [].
Proof.
  rewrite escapeHtml_units. destruct s as [|c s]; [congruence|].
  intros _. cbn [flat_map]. unfold escape_unit.
  destruct (eqc "&" c); [discriminate|].
  destruct (eqc "<" c); [discriminate|].
  destruct (eqc ">" c); discriminate.
Qed.

(** The link rule leaves alone the escaped text of a line whose only
    bracket opens a construct with a target that does not begin with
    [http://] or [https://]. *)
Lemma linkPass_line_rejects pre label url post :
  forallb (nec "[") (pre ++ label ++ url ++ post) = true ->
  forallb (nec "]") label = true ->
  JsString.startsWith url (js "http://") = false ->
  JsString.startsWith url (js "https://") = false ->
  linkPass
    (escapeHtml (pre ++ js "[" ++ label ++ js "](" ++ url ++ js ")" ++ post))
  = escapeHtml (pre ++ js "[" ++ label ++ js "](" ++ url ++ js ")" ++ post).
Proof.
  intros Hb Hl H1 H2. rewrite !escapeHtml_app.
  rewrite (escapeHtml_plain (js "[")), (escapeHtml_plain (js "](")),
    (escapeHtml_plain (js ")")) by reflexivity.
  apply linkPass_rejects.
  - rewrite <- !escapeHtml_app. now apply escapeHtml_class.
  - now apply escapeHtml_class.
  - destruct (JsString.startsWith (escapeHtml url) (js "http://")) eqn:E;
      [|reflexivity].
    apply escapeHtml_startsWith in E; [congruence | reflexivity].
  - destruct (JsString.startsWith (escapeHtml url) (js "https://")) eqn:E;
      [|reflexivity].
    apply escapeHtml_startsWith in E; [congruence | reflexivity].
Qed.

(** On a line without those units only the escape pre-pass and the
    inline-code rule act. *)
Lemma format_plain line :
  forallb (fun c => negb (opens_rule c)) line = true ->
  applyInlineFormatting line = codePass (escapeHtml line).
Proof.
  intros H. unfold applyInlineFormatting. f_equal.
  assert (G : forall a,
             (forall c, negb (opens_rule c) = true ->
                        negb (eqc a c) = true) ->
             forallb (forallb (fun c => negb (eqc a c))) entities = true ->
             forallb (fun c => negb (eqc a c)) (escapeHtml line) = true).
  { intros a Ha He. apply escapeHtml_class; [exact He|].
    exact (forallb_weaken _ _ _ Ha H). }
  assert (Hopen : forall c, negb (opens_rule c) = true ->
            eqc "[" c = false /\ eqc "*" c = false /\ eqc "_" c = false).
  { intros c Hc. unfold opens_rule in Hc.
    apply negb_true_iff in Hc. apply orb_false_iff in Hc.
    destruct Hc as [Hc ?]. apply orb_false_iff in Hc. tauto. }
  unfold linkPass.
  rewrite (@replaceAll_untouched link_re link_tmpl (eqc "[") _ link_starts);
    [|apply G; [intros c Hc; now rewrite (proj1 (Hopen c Hc))
               | reflexivity]].
  unfold boldPass.
  rewrite (@replaceAll_untouched bold_re bold_tmpl (eqc "*") _ bold_starts);
    [|apply G; [intros c Hc; now rewrite (proj1 (proj2 (Hopen c Hc)))
               | reflexivity]].
  unfold underscorePass.
  rewrite (@replaceAll_untouched underscore_re em_tmpl (eqc "_") _
             underscore_starts);
    [|apply G; [intros c Hc; now rewrite (proj2 (proj2 (Hopen c Hc)))
               | reflexivity]].
  unfold asteriskPass.
  rewrite (@replaceAll_untouched asterisk_re em_tmpl (eqc "*") _
             asterisk_starts);
    [|apply G; [intros c Hc; now rewrite (proj1 (proj2 (Hopen c Hc)))
               | reflexivity]].
  reflexivity.
Qed.

(** An inline-code construct on such a line: the span holds the escaped
    text between the backticks. *)
Lemma code_span_plain pre t post :
  forallb (fun c => negb (opens_rule c)) (pre ++ t ++ post) = true ->
  forallb (nec "`") pre = true ->
  t <> [] -> forallb (nec "`") t = true ->
  applyInlineFormatting (pre ++ js "`" ++ t ++ js "`" ++ post) =
  escapeHtml pre ++ code_open ++ escapeHtml t ++ code_close ++
  applyInlineFormatting post.
Proof.
  intros Hplain Hpre Ht Hc.
  rewrite !forallb_app in Hplain.
  apply andb_true_iff in Hplain. destruct Hplain as [Hp1 Hplain].
  apply andb_true_iff in Hplain. destruct Hplain as [Hp2 Hp3].
  rewrite format_plain
    by (rewrite !forallb_app, Hp1, Hp2, Hp3; reflexivity).
  rewrite (format_plain post) by exact Hp3.
  rewrite !escapeHtml_app.
  rewrite (escapeHtml_plain (js "`")) by reflexivity.
  apply codePass_first.
  - now apply escapeHtml_class.
  - now apply escapeHtml_nonempty.
  - now apply escapeHtml_class.
Qed.

End LineFacts.

(** ** Facts about the block splitter *)

Module SplitFacts.

Import MatchSpec RegExpFacts ReplaceFacts PatternFacts.
Import Inline Render.

Lemma fence_capture bef aft len cs :
  exec fence_re bef aft = Some (len, cs) ->
  capture 1 cs = Some (firstn len aft) /\ len <= length aft.
Proof.
  intros He. pose proof (exec_length _ _ _ He) as Hl.
  apply exec_sound in He. destruct He as (x & rest & -> & -> & Hm).
  split; [|exact Hl]. rewrite firstn_app, Nat.sub_diag, firstn_all.
  simpl. rewrite app_nil_r.
  apply fence_match in Hm. now destruct Hm as (body & _ & Hc).
Qed.

(** The pieces of the scan put together give back what it was given. *)
Lemma splitFrom_pieces aft :
  forall n cur bef,
    n <= length aft -> (n <> 0 -> cur = []) ->
    exists pieces,
      splitFrom fence_re n cur bef aft = map Some pieces /\
      concat pieces = rev cur ++ skipn n aft.
Proof.
  induction aft as [|c aft IH]; intros n cur bef Hn Hcur.
  - simpl in Hn. assert (n = 0) by lia. subst n.
    exists [rev cur]. simpl. now rewrite !app_nil_r.
  - simpl in Hn. cbn [splitFrom]. destruct n as [|n].
    + destruct (exec fence_re bef (c :: aft)) as [[len cs]|] eqn:He.
      * destruct (fence_capture _ _ He) as [Hc Hl]. simpl in Hl.
        change (seq 1 (groups fence_re)) with [1]. cbn [map]. rewrite Hc.
        destruct len as [|len].
        -- destruct cur as [|d cur].
           ++ destruct (IH 0 [c] (c :: bef)) as (ps & E & Hps);
                [lia | congruence |].
              exists ps. split; [exact E|]. rewrite Hps. reflexivity.
           ++ destruct (IH 0 [c] (c :: bef)) as (ps & E & Hps);
                [lia | congruence |].
              exists (rev (d :: cur) :: [] :: ps). cbn [map app firstn].
              split; [now rewrite E|]. cbn [concat]. rewrite Hps.
              reflexivity.
        -- destruct (IH len [] (c :: bef)) as (ps & E & Hps);
             [lia | reflexivity |].
           exists (rev cur :: firstn (S len) (c :: aft) :: ps).
           cbn [map app]. split; [now rewrite E|].
           cbn [concat]. rewrite Hps. cbn [rev app firstn skipn].
           now rewrite firstn_skipn.
      * destruct (IH 0 (c :: cur) (c :: bef)) as (ps & E & Hps);
          [lia | congruence |].
        exists ps. split; [exact E|]. rewrite Hps. simpl.
        now rewrite <- app_assoc.
    + rewrite (Hcur ltac:(discriminate)).
      destruct (IH n [] (c :: bef)) as (ps & E & Hps);
        [lia | reflexivity |].
      exists ps. split; [exact E|]. rewrite Hps. reflexivity.
Qed.

Lemma split_pieces s :
  exists pieces,
    split fence_re s = map Some pieces /\ concat pieces = s /\
    pieces <> [].
Proof.
  destruct s as [|c s].
  - exists [[]]. split; [reflexivity|]. split; [reflexivity|discriminate].
  - destruct (@splitFrom_pieces (c :: s) 0 [] []) as (ps & E & Hps);
      [simpl; lia | reflexivity |].
    exists ps. repeat split; [exact E | exact Hps |].
    intros ->. discriminate.
Qed.

(** Where the pattern matches nowhere, the scan returns one piece. *)
Lemma splitFrom_whole r aft :
  forall cur bef,
    (forall z a, aft = z ++ a -> exec r (rev z ++ bef) a = None) ->
    splitFrom r 0 cur bef aft = [Some (rev cur ++ aft)].
Proof.
  induction aft as [|c aft IH]; intros cur bef Hno.
  - simpl. now rewrite app_nil_r.
  - cbn [splitFrom]. pose proof (Hno [] (c :: aft) eq_refl) as H0.
    cbn [rev app] in H0. rewrite H0. rewrite IH.
    + simpl. now rewrite <- app_assoc.
    + intros z a E. specialize (Hno (c :: z) a). simpl in Hno.
      rewrite <- app_assoc in Hno. apply Hno. now rewrite E.
Qed.

(** An opening fence after which no three backticks follow: the splitter
    matches nowhere and returns the input as one block. *)
Lemma split_unterminated pre rest :
  forallb (nec "`") pre = true ->
  ~ Markup.occurs (js "```") rest ->
  split fence_re (pre ++ js "```" ++ rest) = [Some (pre ++ js "```" ++ rest)].
Proof.
  intros Hpre Hrest.
  assert (Hno : forall z a, pre ++ js "```" ++ rest = z ++ a ->
                            exec fence_re (rev z ++ []) a = None).
  { intros z a E.
    destruct (exec fence_re (rev z ++ []) a) as [[len cs]|] eqn:He;
      [exfalso|reflexivity].
    apply exec_sound in He. destruct He as (x & rest' & -> & _ & Hm).
    apply fence_match in Hm. destruct Hm as (body & -> & _).
    rewrite <- !app_assoc in E.
    apply app_eq_app in E. destruct E as (l & [[E1 E2]|[E1 E2]]).
    - destruct l as [|c l].
      + simpl in E2. inversion E2 as [E].
        apply Hrest. now exists body, rest'.
      + simpl in E2. inversion E2; subst c.
        rewrite E1, forallb_app in Hpre. simpl in Hpre.
        rewrite andb_false_r in Hpre. discriminate.
    - apply Hrest. clear Hrest Hpre E1.
      destruct l as [|c1 [|c2 [|c3 l]]]; simpl in E2; inversion E2; subst.
      + now exists body, rest'.
      + now exists (code "`" :: body), rest'.
      + now exists (code "`" :: code "`" :: body), rest'.
      + exists (l ++ js "```" ++ body), rest'.
        now rewrite <- !app_assoc. }
  unfold split. destruct (pre ++ js "```" ++ rest) as [|c s] eqn:E.
  - destruct pre; discriminate.
  - rewrite <- E in *. rewrite (@splitFrom_whole fence_re _ [] [] Hno).
    reflexivity.
Qed.

End SplitFacts.

(** ** Facts about trimming and the line loop *)

Module RenderFacts.

Import Inline Render Markup RenderSpec MarkupFacts InlineFacts LinkFacts.
Import JsString.

#[local] Unset Implicit Arguments.

Lemma trimStart_spaces ws s :
  forallb isSpace ws = true -> trimStart (ws ++ s) = trimStart s.
Proof.
  induction ws as [|c ws IH]; simpl; [reflexivity|].
  intros H. apply andb_true_iff in H. destruct H as [-> H]. auto.
Qed.

Lemma trimStart_unit c s : isSpace c = false -> trimStart (c :: s) = c :: s.
Proof. intros H. simpl. now rewrite H. Qed.

Lemma trimStart_app l m :
  trimStart l <> [] -> trimStart (l ++ m) = trimStart l ++ m.
Proof.
  induction l as [|c l IH]; simpl; [congruence|].
  destruct (isSpace c); auto.
Qed.

Lemma trimStart_some l :
  existsb (fun c => negb (isSpace c)) l = true -> trimStart l <> [].
Proof.
  induction l as [|c l IH]; simpl; [discriminate|].
  destruct (isSpace c); simpl; [exact IH | discriminate].
Qed.

Lemma trimStart_last l c :
  isSpace c = false -> exists z, trimStart (l ++ [c]) = z ++ [c].
Proof.
  intros Hc. induction l as [|a l IH]; simpl.
  - rewrite Hc. now exists [].
  - destruct (isSpace a); [exact IH|]. now exists (a :: l).
Qed.

(** Trimming keeps a first unit that is not white space. *)
Lemma trim_unit c s :
  isSpace c = false -> exists r, trim (c :: s) = c :: r.
Proof.
  intros Hc. unfold trim, trimEnd. rewrite trimStart_unit by exact Hc.
  cbn [rev]. destruct (trimStart_last (rev s) c Hc) as (z & ->).
  exists (rev z). now rewrite rev_app_distr.
Qed.

(** Trimming keeps what stands before a unit that is not white space. *)
Lemma trimEnd_app a b :
  existsb (fun c => negb (isSpace c)) b = true ->
  trimEnd (a ++ b) = a ++ trimEnd b.
Proof.
  intros Hb. unfold trimEnd. rewrite rev_app_distr, trimStart_app.
  - now rewrite rev_app_distr, rev_involutive.
  - apply trimStart_some. apply existsb_exists in Hb.
    destruct Hb as (c & Hin & Hc). apply existsb_exists.
    exists c. split; [now apply -> in_rev | exact Hc].
Qed.

Lemma startsWith_first c s a p :
  (a =? c)%N = false -> startsWith (c :: s) (a :: p) = false.
Proof. intros H. simpl. now rewrite H. Qed.

Lemma space_not a c : isSpace (code a) = false -> isSpace c = true ->
                      (code a =? c)%N = false.
Proof.
  intros Ha Hc. apply N.eqb_neq. intros E. rewrite E in Ha. congruence.
Qed.

(** *** The branches of the line loop *)

(** An indented line: white space, then a unit that is neither white
    space nor an asterisk. *)
Lemma processLine_indented st ws c t :
  ws <> [] -> forallb isSpace ws = true ->
  isSpace c = false -> (code "*" =? c)%N = false ->
  processLine st (ws ++ c :: t) =
  push (P (applyInlineFormatting (ws ++ c :: t))) (flushListItems st).
Proof.
  intros Hne Hws Hc Hstar. unfold processLine.
  destruct ws as [|w ws]; [congruence|]. simpl in Hws.
  apply andb_true_iff in Hws. destruct Hws as [Hw Hws].
  cbn [app].
  change (js "## ") with (code "#" :: js "# ").
  rewrite startsWith_first
    by (apply space_not; [reflexivity | exact Hw]).
  change (js "### ") with (code "#" :: js "## ").
  rewrite startsWith_first
    by (apply space_not; [reflexivity | exact Hw]).
  assert (Ht : exists r, trim (w :: ws ++ c :: t) = c :: r).
  { unfold trim. cbn [trimStart]. rewrite Hw.
    rewrite trimStart_spaces by exact Hws.
    rewrite trimStart_unit by exact Hc.
    destruct (trim_unit c t Hc) as (r & Hr). exists r.
    unfold trim in Hr. now rewrite trimStart_unit in Hr by exact Hc. }
  destruct Ht as (r & ->).
  change (js "* ") with (code "*" :: js " ").
  rewrite startsWith_first by exact Hstar. reflexivity.
Qed.

(** A list item: white space or none, the marker, and a text with a unit
    that is not white space. *)
Lemma listItem_marker ws t :
  forallb isSpace ws = true ->
  existsb (fun c => negb (isSpace c)) t = true ->
  isListItem (ws ++ js "* " ++ t) = true.
Proof.
  intros Hws Ht. unfold isListItem.
  assert (H1 : forall p, startsWith (ws ++ js "* " ++ t) (code "#" :: p)
                         = false).
  { intros p. destruct ws as [|w ws].
    - reflexivity.
    - simpl in Hws. apply andb_true_iff in Hws. cbn [app].
      apply startsWith_first, space_not; [reflexivity | tauto]. }
  change (js "## ") with (code "#" :: js "# ").
  change (js "### ") with (code "#" :: js "## ").
  rewrite !H1. cbn [negb andb].
  unfold trim. rewrite trimStart_spaces by exact Hws.
  change (js "* " ++ t) with (code "*" :: (code " " :: t)).
  rewrite trimStart_unit by reflexivity.
  change (code "*" :: code " " :: t) with (js "* " ++ t).
  rewrite trimEnd_app by exact Ht. apply startsWith_prefix.
Qed.

Lemma processLine_item st line :
  isListItem line = true ->
  processLine st line = LS (elements st) (listItems st ++ [line]).
Proof.
  unfold isListItem, processLine. intros H.
  apply andb_true_iff in H. destruct H as [H H3].
  apply andb_true_iff in H. destruct H as [H1 H2].
  apply negb_true_iff in H1. apply negb_true_iff in H2.
  now rewrite H1, H2, H3.
Qed.

Lemma processLine_items items :
  forall st,
    Forall (fun line => isListItem line = true) items ->
    fold_left processLine items st =
    LS (elements st) (listItems st ++ items).
Proof.
  induction items as [|l items IH]; intros [els pending] H; simpl.
  - now rewrite app_nil_r.
  - inversion H; subst. rewrite processLine_item by assumption.
    rewrite IH by assumption. simpl. now rewrite <- app_assoc.
Qed.

Lemma flush_items els items :
  items <> [] ->
  flushListItems (LS els items) = LS (els ++ [Ul (map itemHtml items)]) [].
Proof. destruct items; [congruence | reflexivity]. Qed.

(** Every other branch flushes first and goes on with an empty buffer. *)
Lemma processLine_other st line :
  isListItem line = false ->
  exists tail,
    processLine st line = LS (elements (flushListItems st) ++ tail) [] /\
    forallb (fun e => negb (isUl e)) tail = true.
Proof.
  unfold isListItem, processLine. intros H.
  assert (Hf : listItems (flushListItems st) = []).
  { unfold flushListItems. destruct st as [els [|i items]]; reflexivity. }
  destruct (startsWith line (js "## ")) eqn:E2.
  { eexists [_]. unfold push. rewrite Hf. split; reflexivity. }
  destruct (startsWith line (js "### ")) eqn:E3.
  { eexists [_]. unfold push. rewrite Hf. split; reflexivity. }
  cbn [negb andb] in H. rewrite H.
  destruct (trim line).
  - cbv zeta. destruct (flushListItems st) as [els pending].
    cbn [listItems] in Hf. subst pending. cbn [elements].
    destruct els as [|e els].
    + exists []. split; reflexivity.
    + exists [Br]. split; reflexivity.
  - eexists [_]. unfold push. rewrite Hf. split; reflexivity.
Qed.

(** *** The markup of every element is safe *)

Lemma flushListItems_Safe st :
  Forall SafeElement (elements st) ->
  Forall SafeElement (elements (flushListItems st)).
Proof.
  intros H. unfold flushListItems. destruct (listItems st); [exact H|].
  cbn [elements]. apply Forall_app. split; [exact H|].
  constructor; [|constructor]. cbn [SafeElement].
  apply Forall_forall. intros x Hx. apply in_map_iff in Hx.
  destruct Hx as (item & <- & _). apply applyInlineFormatting_Safe.
Qed.

Lemma push_Safe e st :
  SafeElement e -> Forall SafeElement (elements st) ->
  Forall SafeElement (elements (push e st)).
Proof.
  intros He H. unfold push. cbn [elements]. apply Forall_app.
  split; [exact H|]. now constructor.
Qed.

Lemma processLine_Safe st line :
  Forall SafeElement (elements st) ->
  Forall SafeElement (elements (processLine st line)).
Proof.
  intros H. pose proof (flushListItems_Safe st H) as Hf.
  unfold processLine.
  destruct (startsWith line (js "## "));
    [apply push_Safe; [apply applyInlineFormatting_Safe | exact Hf]|].
  destruct (startsWith line (js "### "));
    [apply push_Safe; [apply applyInlineFormatting_Safe | exact Hf]|].
  destruct (startsWith (trim line) (js "* ")); [exact H|].
  destruct (trim line).
  - cbv zeta. destruct (flushListItems st) as [[|e els] pending].
    + constructor.
    + apply push_Safe; [exact I | exact Hf].
  - apply push_Safe; [apply applyInlineFormatting_Safe | exact Hf].
Qed.

Lemma renderText_Safe block : Forall SafeElement (renderText block).
Proof.
  unfold renderText. apply flushListItems_Safe.
  assert (G : forall lines st,
             Forall SafeElement (elements st) ->
             Forall SafeElement (elements (fold_left processLine lines st))).
  { induction lines as [|l lines IH]; intros st H; simpl; [exact H|].
    apply IH, processLine_Safe, H. }
  apply G. constructor.
Qed.

Lemma mapBlocks_Safe blocks nodes :
  mapBlocks blocks = Returns nodes -> Forall SafeNode nodes.
Proof.
  revert nodes. induction blocks as [|b bs IH]; intros nodes H; simpl in H.
  - inversion H. constructor.
  - destruct (renderBlock b) as [n|] eqn:Hb; [|discriminate].
    destruct (mapBlocks bs) as [ns|]; [|discriminate].
    inversion H; subst. constructor; [|now apply IH].
    destruct b as [b|]; [|discriminate]. simpl in Hb.
    destruct (RegExp.test fence_start_re b); inversion Hb; subst; simpl.
    + apply escapeHtml_Escaped.
    + apply renderText_Safe.
Qed.

(** *** The renderer always returns *)

Lemma mapBlocks_returns pieces :
  exists nodes,
    mapBlocks (map Some pieces) = Returns nodes /\
    length nodes = length pieces.
Proof.
  induction pieces as [|b bs (ns & E & Hl)]; simpl.
  - now exists [].
  - rewrite E. destruct (RegExp.test fence_start_re b);
      eexists (_ :: ns); simpl; split; auto.
Qed.

End RenderFacts.

(** ** Facts about the interaction shell *)

Module AppFacts.

Import App AppSpec JsString RenderFacts.

#[local] Unset Implicit Arguments.

(** The trimmed prompt is empty exactly when the prompt is white space
    only. *)
Lemma blank_spaces s : blank s = forallb isSpace s.
Proof.
  unfold blank, trim. induction s as [|c s IH]; [reflexivity|].
  cbn [trimStart forallb]. destruct (isSpace c) eqn:Hc; [exact IH|].
  destruct (trim_unit c s Hc) as (r & Hr). unfold trim in Hr.
  rewrite trimStart_unit in Hr by exact Hc. now rewrite Hr.
Qed.

Lemma step_one_request w e : one_request w -> one_request (step w e).
Proof.
  destruct w as [[p g l err] fl]. unfold one_request. simpl.
  intros [[-> ->]|[-> (q & ->)]]; destruct e as [|text|o]; simpl.
  - unfold handleGeneratePost. simpl. rewrite orb_false_r.
    destruct (blank p); simpl; [now left|]. right. eauto.
  - now left.
  - now left.
  - unfold handleGeneratePost. simpl. rewrite orb_true_r. simpl.
    right. eauto.
  - right. eauto.
  - left. now destruct o as [t|[m|]].
Qed.

Lemma run_one_request events : one_request (run_events events).
Proof.
  unfold run_events.
  assert (G : forall w, one_request w ->
                        one_request (fold_left step events w)).
  { induction events as [|e es IH]; intros w H; simpl; [exact H|].
    apply IH, step_one_request, H. }
  apply G. left. split; reflexivity.
Qed.

End AppFacts.

(** ** Where the rules of the formatter do match *)

Module RuleFacts.

Import MatchSpec RegExpFacts ReplaceFacts PatternFacts ForwardFacts.
Import Inline Markup TextSpec InlineFacts PassFacts LinkFacts EscapeFacts.
Import LineFacts.

#[local] Unset Implicit Arguments.

(** A lazy repetition stops at the first place where the rest of the
    pattern accepts. *)
Lemma rep_lazy_min (A : Type) p (k : state -> option A) x :
  forall bef rest cs res,
    forallb p x = true ->
    (forall x1 x2, x = x1 ++ x2 -> x2 <> [] ->
       k (State (rev x1 ++ bef) (x2 ++ rest) cs) = None) ->
    k (State (rev x ++ bef) rest cs) = Some res ->
    rep false p k bef (x ++ rest) cs = Some res.
Proof.
  induction x as [|c x IH]; intros bef rest cs res Hx Hno Hk.
  - simpl in *. destruct rest as [|c rest]; simpl in *; [exact Hk|].
    rewrite Hk. now destruct (p c).
  - simpl in Hx. apply andb_true_iff in Hx. destruct Hx as [Hc Hx].
    cbn [app rep]. rewrite Hc.
    pose proof (Hno [] (c :: x) eq_refl ltac:(discriminate)) as H0.
    cbn [rev app] in H0. rewrite H0.
    apply IH; [exact Hx | | ].
    + intros x1 x2 E Hne. specialize (Hno (c :: x1) x2).
      simpl in Hno. rewrite <- app_assoc in Hno. apply Hno; [|exact Hne].
      now rewrite E.
    + simpl in Hk. now rewrite <- app_assoc in Hk.
Qed.

Lemma consumed_from bef aft cs x aft' cs' :
  consumed (State bef aft cs) (State (rev x ++ bef) aft' cs') = x.
Proof. apply consumed_spec. Qed.

Ltac finish_exec t :=
  cbn [before caps]; apply f_equal;
  apply (f_equal (fun n : nat => (n, [(1, t)])));
  cbn [length]; rewrite ?length_app, ?length_rev; cbn [length];
  rewrite ?length_app, ?length_rev; cbn [length]; lia.

Lemma not_eqc a c : nec a c = true -> (N_of_ascii a =? c)%N = false.
Proof. unfold nec, eqc, code. intros H. now apply negb_true_iff in H. Qed.

Lemma bold_exec bef t post :
  forallb dot t = true -> forallb (nec "*") t = true ->
  exec bold_re bef (js "**" ++ t ++ js "**" ++ post) =
  Some (length (js "**" ++ t ++ js "**"), [(1, t)]).
Proof.
  intros Hd Hs. unfold exec, bold_re, lit, lit1.
  cbn [list_ascii_of_string fold_right run app js map before after caps].
  repeat (rewrite N.eqb_refl; cbn [before after caps]).
  erewrite rep_lazy_min; [| exact Hd | | ].
  3:{ cbn [before after caps app]. rewrite !N.eqb_refl.
      rewrite consumed_from. reflexivity. }
  2:{ intros x1 x2 E Hne. cbn [before after caps].
      destruct x2 as [|c x2]; [congruence|]. cbn [app].
      rewrite not_eqc; [reflexivity|].
      rewrite E, forallb_app in Hs. simpl in Hs.
      apply andb_true_iff in Hs. destruct Hs as [_ Hs].
      now apply andb_true_iff in Hs. }
  finish_exec t.
Qed.

Lemma underscore_exec bef t post :
  t <> [] -> forallb (nec "_") t = true ->
  exec underscore_re bef (js "_" ++ t ++ js "_" ++ post) =
  Some (length (js "_" ++ t ++ js "_"), [(1, t)]).
Proof.
  intros Ht Hc. destruct t as [|c t]; [congruence|].
  simpl in Hc. apply andb_true_iff in Hc. destruct Hc as [Hc Ht'].
  unfold exec, underscore_re, lit, lit1, plus.
  cbn [list_ascii_of_string fold_right run app js map before after caps].
  rewrite N.eqb_refl. cbn [before after caps]. rewrite Hc.
  erewrite rep_greedy_max; [| exact Ht' | reflexivity | ].
  2:{ cbn [before after caps].
      change (rev t ++ c :: N_of_ascii "_" :: bef)
        with (rev t ++ [c] ++ N_of_ascii "_" :: bef).
      rewrite app_assoc.
      change (rev t ++ [c]) with (rev (c :: t)).
      rewrite consumed_from. rewrite N.eqb_refl. reflexivity. }
  finish_exec (c :: t).
Qed.

Lemma asterisk_exec bef c t post :
  holds (eqc "*") bef = false -> italic_start c = true ->
  forallb (nec "*") t = true -> holds (eqc "*") post = false ->
  exec asterisk_re bef (js "*" ++ (c :: t) ++ js "*" ++ post) =
  Some (length (js "*" ++ (c :: t) ++ js "*"), [(1, c :: t)]).
Proof.
  intros Hb Hc Ht Hp. unfold exec, asterisk_re, lit, lit1.
  cbn [list_ascii_of_string fold_right run app js map before after caps].
  rewrite Hb. rewrite N.eqb_refl. cbn [before after caps]. rewrite Hc.
  cbn [before after caps].
  erewrite rep_lazy_min; [| exact Ht | | ].
  3:{ cbn [before after caps app]. rewrite N.eqb_refl.
      cbn [before after caps]. rewrite Hp.
      change (rev t ++ c :: N_of_ascii "*" :: bef)
        with (rev t ++ [c] ++ N_of_ascii "*" :: bef).
      rewrite app_assoc.
      change (rev t ++ [c]) with (rev (c :: t)).
      rewrite consumed_from. reflexivity. }
  2:{ intros x1 x2 E Hne. cbn [before after caps].
      destruct x2 as [|d x2]; [congruence|]. cbn [app].
      rewrite not_eqc; [reflexivity|].
      rewrite E, forallb_app in Ht. simpl in Ht.
      apply andb_true_iff in Ht. destruct Ht as [_ Ht].
      now apply andb_true_iff in Ht. }
  finish_exec (c :: t).
Qed.
Lemma consumed_eq st st' x :
  before st' = rev x ++ before st -> consumed st st' = x.
Proof.
  destruct st as [b a c], st' as [b' a' c']. simpl. intros ->.
  apply consumed_spec.
Qed.



(** The scan of [replaceAll] up to and over its first match. *)
Lemma replaceAll_first r tmpl start pre x cs post :
  starts_with r start ->
  forallb (fun c => negb (start c)) pre = true ->
  x <> [] ->
  exec r (rev pre ++ []) (x ++ post) = Some (length x, cs) ->
  replaceAll r tmpl (pre ++ x ++ post) =
  pre ++ expand (groups r) tmpl x cs ++
  replaceFrom r tmpl 0 (rev x ++ rev pre ++ []) post.
Proof.
  intros Hs Hpre Hx He. unfold replaceAll.
  rewrite (@replaceFrom_copy r tmpl start pre Hs Hpre).
  now rewrite (@replaceFrom_hit r tmpl _ x post cs Hx He).
Qed.

(** The scan leaves alone a text in which no match can start. *)
Lemma replaceFrom_untouched r tmpl start s :
  starts_with r start ->
  forallb (fun c => negb (start c)) s = true ->
  forall bef, replaceFrom r tmpl 0 bef s = s.
Proof.
  intros Hs. induction s as [|c s IH]; intros Hn bef; cbn [replaceFrom].
  - destruct (exec r bef []) as [[len cs]|] eqn:He; [|reflexivity].
    apply Hs in He. discriminate.
  - cbn [forallb] in Hn. apply andb_true_iff in Hn. destruct Hn as [Hc Hn].
    destruct (exec r bef (c :: s)) as [[len cs]|] eqn:He.
    + apply Hs in He. cbn [holds] in He. rewrite He in Hc. discriminate.
    + f_equal. now apply IH.
Qed.

(** A pattern whose matches all start with two neighbours in the relation
    [p] leaves alone a text without such neighbours. *)
Lemma replaceFrom_no_adjacent r tmpl p s :
  (forall bef aft len cs,
      exec r bef aft = Some (len, cs) ->
      exists c d rest, aft = c :: d :: rest /\ p c d = true) ->
  no_adjacent p s = true ->
  forall bef, replaceFrom r tmpl 0 bef s = s.
Proof.
  intros Hp. induction s as [|c s IH]; intros Hs bef; cbn [replaceFrom].
  - destruct (exec r bef []) as [[len cs]|] eqn:He; [|reflexivity].
    apply Hp in He. destruct He as (c & d & rest & E & _). discriminate.
  - destruct (exec r bef (c :: s)) as [[len cs]|] eqn:He.
    + exfalso. apply Hp in He. destruct He as (c' & d & rest & E & Hcd).
      inversion E; subst. cbn [no_adjacent] in Hs.
      rewrite Hcd in Hs. discriminate.
    + f_equal. apply IH. cbn [no_adjacent] in Hs.
      destruct s as [|d s']; [reflexivity|].
      now apply andb_true_iff in Hs.
Qed.

(** A pattern whose matches all hold [n] units of a class leaves alone a
    text that holds fewer. *)
Lemma replaceFrom_few r tmpl q n s :
  (forall bef aft len cs,
      exec r bef aft = Some (len, cs) -> n <= count q aft) ->
  count q s < n ->
  forall bef, replaceFrom r tmpl 0 bef s = s.
Proof.
  intros Hq. induction s as [|c s IH]; intros Hs bef; cbn [replaceFrom].
  - destruct (exec r bef []) as [[len cs]|] eqn:He; [|reflexivity].
    apply Hq in He. lia.
  - destruct (exec r bef (c :: s)) as [[len cs]|] eqn:He.
    + apply Hq in He. lia.
    + f_equal. apply IH.
      change (c :: s) with ([c] ++ s) in Hs. rewrite count_app in Hs. lia.
Qed.

End RuleFacts.
(** ** Lines with one construct *)

Module TextFacts.

Import MatchSpec RegExpFacts ReplaceFacts PatternFacts ForwardFacts.
Import Inline Markup TextSpec InlineFacts PassFacts LinkFacts EscapeFacts.
Import LineFacts RuleFacts.

#[local] Unset Implicit Arguments.

Lemma plain_text_app a b : plain_text (a ++ b) = plain_text a && plain_text b.
Proof. apply forallb_app. Qed.

Lemma rule_unit_cases c :
  rule_unit c = false ->
  eqc "[" c = false /\ eqc "*" c = false /\ eqc "_" c = false /\
  eqc "`" c = false.
Proof.
  unfold rule_unit, opens_rule. intros H.
  apply orb_false_iff in H. destruct H as [H H4].
  apply orb_false_iff in H. destruct H as [H H3].
  apply orb_false_iff in H. tauto.
Qed.

Lemma plain_no_bracket s : plain_text s = true -> forallb (nec "[") s = true.
Proof.
  apply forallb_weaken. intros c H. apply negb_true_iff in H.
  apply rule_unit_cases in H. unfold nec. now rewrite (proj1 H).
Qed.

Lemma plain_no_star s : plain_text s = true -> forallb (nec "*") s = true.
Proof.
  apply forallb_weaken. intros c H. apply negb_true_iff in H.
  apply rule_unit_cases in H. unfold nec. now rewrite (proj1 (proj2 H)).
Qed.

Lemma plain_no_underscore s :
  plain_text s = true -> forallb (nec "_") s = true.
Proof.
  apply forallb_weaken. intros c H. apply negb_true_iff in H.
  apply rule_unit_cases in H. unfold nec.
  now rewrite (proj1 (proj2 (proj2 H))).
Qed.

Lemma plain_no_backtick s : plain_text s = true -> forallb (nec "`") s = true.
Proof.
  apply forallb_weaken. intros c H. apply negb_true_iff in H.
  apply rule_unit_cases in H. unfold nec.
  now rewrite (proj2 (proj2 (proj2 H))).
Qed.

(** The escape pre-pass brings in no unit of a rule. *)
Lemma escapeHtml_plain_text s :
  plain_text s = true -> plain_text (escapeHtml s) = true.
Proof. apply escapeHtml_class. reflexivity. Qed.

(** No rule acts on a text without units of a rule. *)
Lemma passes_plain s :
  plain_text s = true ->
  linkPass s = s /\ boldPass s = s /\ underscorePass s = s /\
  asteriskPass s = s /\ codePass s = s.
Proof.
  intros H. repeat split.
  - exact (@replaceAll_untouched _ link_tmpl _ s link_starts
             (plain_no_bracket s H)).
  - exact (@replaceAll_untouched _ bold_tmpl _ s bold_starts
             (plain_no_star s H)).
  - exact (@replaceAll_untouched _ em_tmpl _ s underscore_starts
             (plain_no_underscore s H)).
  - exact (@replaceAll_untouched _ em_tmpl _ s asterisk_starts
             (plain_no_star s H)).
  - exact (@replaceAll_untouched _ code_tmpl _ s code_starts
             (plain_no_backtick s H)).
Qed.

Lemma count_none q s :
  forallb (fun c => negb (q c)) s = true -> count q s = 0.
Proof.
  unfold count. induction s as [|c s IH]; [reflexivity|].
  cbn [forallb filter]. intros H. apply andb_true_iff in H.
  destruct H as [Hc Hs]. apply negb_true_iff in Hc. rewrite Hc. now apply IH.
Qed.

Lemma holds_rev_none q s :
  forallb (fun c => negb (q c)) s = true -> holds q (rev s ++ []) = false.
Proof.
  intros H. rewrite app_nil_r.
  assert (G : forallb (fun c => negb (q c)) (rev s) = true).
  { apply forallb_forall. intros c Hc. apply in_rev in Hc.
    exact (proj1 (forallb_forall _ _) H c Hc). }
  destruct (rev s) as [|c l]; [reflexivity|].
  cbn [forallb] in G. apply andb_true_iff in G. destruct G as [G _].
  now apply negb_true_iff in G.
Qed.

Lemma holds_none q s :
  forallb (fun c => negb (q c)) s = true -> holds q s = false.
Proof.
  destruct s as [|c s]; [reflexivity|]. cbn [forallb holds]. intros H.
  apply andb_true_iff in H. destruct H as [H _]. now apply negb_true_iff in H.
Qed.


Lemma bold_needs_four bef aft len cs :
  exec bold_re bef aft = Some (len, cs) -> 4 <= count (eqc "*") aft.
Proof.
  intros He. apply exec_sound in He. destruct He as (x & rest & -> & _ & Hm).
  apply bold_match in Hm. destruct Hm as (t & -> & _).
  rewrite !count_app. cbn. lia.
Qed.

(** Both asterisk rules start at an asterisk that is followed by a unit
    other than white space. *)
Lemma bold_needs_pair bef aft len cs :
  exec bold_re bef aft = Some (len, cs) ->
  exists c d rest, aft = c :: d :: rest /\ star_then_text c d = true.
Proof.
  intros He. apply exec_sound in He. destruct He as (x & rest & -> & _ & Hm).
  apply bold_match in Hm. destruct Hm as (t & -> & _).
  eexists _, _, _. split; [reflexivity|]. reflexivity.
Qed.

Lemma asterisk_needs_text bef aft len cs :
  exec asterisk_re bef aft = Some (len, cs) ->
  exists c d rest, aft = c :: d :: rest /\ star_then_text c d = true.
Proof.
  intros He. apply exec_sound in He. destruct He as (x & rest & -> & _ & Hm).
  apply asterisk_match in Hm. destruct Hm as (c & t & -> & _ & Hc & _).
  eexists _, c, _. split; [reflexivity|].
  unfold star_then_text, italic_start in *.
  apply negb_true_iff in Hc. apply orb_false_iff in Hc.
  destruct Hc as [Hc _]. now rewrite Hc.
Qed.

(** The escape pre-pass puts no text right after an asterisk. *)
Lemma no_adjacent_units a b :
  forallb (nec "*") a = true ->
  no_adjacent star_then_text (a ++ b) = no_adjacent star_then_text b.
Proof.
  induction a as [|x a IH]; [reflexivity|]. cbn [forallb]. intros H.
  apply andb_true_iff in H. destruct H as [Hx Ha].
  cbn [app no_adjacent]. rewrite <- (IH Ha).
  destruct (a ++ b) as [|d l] eqn:E; [reflexivity|].
  unfold star_then_text at 1. unfold nec in Hx.
  apply negb_true_iff in Hx. now rewrite Hx.
Qed.

Lemma space_not_special d : JsString.isSpace d = true -> special d = false.
Proof.
  intros H. unfold special.
  destruct (eqc "&" d) eqn:E1;
    [apply N.eqb_eq in E1; subst d; discriminate|].
  destruct (eqc "<" d) eqn:E2;
    [apply N.eqb_eq in E2; subst d; discriminate|].
  destruct (eqc ">" d) eqn:E3;
    [apply N.eqb_eq in E3; subst d; discriminate|].
  reflexivity.
Qed.

Lemma escape_unit_special c :
  special c = true -> forallb (nec "*") (escape_unit c) = true.
Proof.
  unfold special, escape_unit. intros H.
  destruct (eqc "&" c); [reflexivity|].
  destruct (eqc "<" c); [reflexivity|].
  destruct (eqc ">" c); [reflexivity|discriminate].
Qed.

Lemma escapeHtml_cons c s :
  escapeHtml (c :: s) = escape_unit c ++ escapeHtml s.
Proof. now rewrite !escapeHtml_units. Qed.

Lemma escapeHtml_no_adjacent s :
  no_adjacent star_then_text s = true ->
  no_adjacent star_then_text (escapeHtml s) = true.
Proof.
  induction s as [|c s IH]; [reflexivity|]. intros H.
  assert (Hs : no_adjacent star_then_text s = true).
  { cbn [no_adjacent] in H. destruct s as [|d s']; [reflexivity|].
    now apply andb_true_iff in H. }
  specialize (IH Hs). rewrite escapeHtml_cons.
  destruct (special c) eqn:Ec.
  - now rewrite (no_adjacent_units _ _ (escape_unit_special c Ec)).
  - rewrite (escape_unit_plain c Ec). cbn [app no_adjacent].
    destruct s as [|d s']; [reflexivity|].
    cbn [no_adjacent] in H. apply andb_true_iff in H. destruct H as [Hcd _].
    rewrite escapeHtml_cons in *.
    destruct (escape_unit d ++ escapeHtml s') as [|h l] eqn:E; [reflexivity|].
    rewrite IH, andb_true_r.
    unfold star_then_text in *. destruct (eqc "*" c); [|reflexivity].
    cbn [andb] in *. apply negb_true_iff in Hcd.
    apply negb_false_iff in Hcd.
    rewrite (escape_unit_plain d (space_not_special d Hcd)) in E.
    cbn [app] in E. inversion E; subst. now rewrite Hcd.
Qed.

(** Splits a class test over a concatenation and closes the parts. *)
Ltac units_ok :=
  rewrite ?forallb_app;
  repeat (apply andb_true_intro; split);
  first [ reflexivity
        | assumption
        | apply plain_no_bracket; assumption
        | apply plain_no_star; assumption
        | apply plain_no_underscore; assumption
        | apply plain_no_backtick; assumption ].

End TextFacts.
(** ** Fenced blocks *)

Module FenceFacts.

Import MatchSpec RegExpFacts ReplaceFacts PatternFacts ForwardFacts.
Import Inline Render Markup TextSpec FenceSpec RenderSpec.
Import InlineFacts PassFacts LinkFacts EscapeFacts LineFacts RuleFacts.
Import TextFacts SplitFacts.

#[local] Unset Implicit Arguments.

(** What the strip pattern can match: at the start of the block the
    opening fence with its hint line, anywhere three backticks that end
    the block. *)
Lemma strip_match bef x rest cs :
  Match fence_strip_re bef x rest [] cs ->
  (bef = [] /\ exists l, x = js "```" ++ l ++ [10%N] /\
                         forallb lower l = true) \/
  (x = js "```" /\ rest = []).
Proof.
  intros H. open_match H.
  - left. split; [reflexivity|]. eexists. split; [reflexivity|]. assumption.
  - right. split; reflexivity.
Qed.

Lemma strip_exec_hint l rest :
  forallb lower l = true ->
  exec fence_strip_re [] (js "```" ++ l ++ [10%N] ++ rest) =
  Some (length (js "```" ++ l ++ [10%N]), []).
Proof.
  intros Hl. unfold exec, fence_strip_re, lit, lit1.
  cbn [list_ascii_of_string fold_right run app js map before after caps].
  rewrite !N.eqb_refl. cbn [before after caps].
  erewrite rep_greedy_max; [| exact Hl | reflexivity | ].
  2:{ cbn [before after caps run]. rewrite N.eqb_refl. reflexivity. }
  cbn [before caps]. apply f_equal.
  apply (f_equal (fun n : nat => (n, @nil (nat * jsstring)))).
  cbn [length]. rewrite ?length_app, ?length_rev. cbn [length].
  rewrite ?length_app. cbn [length]. lia.
Qed.

Lemma strip_exec_end b bef :
  exec fence_strip_re (b :: bef) (js "```") = Some (3, []).
Proof.
  unfold exec, fence_strip_re, lit, lit1.
  cbn [list_ascii_of_string fold_right run app js map before after caps].
  rewrite !N.eqb_refl. cbn [before after caps length].
  apply f_equal. apply (f_equal (fun n : nat => (n, @nil (nat * jsstring)))).
  lia.
Qed.

Lemma strip_exec_inside b bef aft len cs :
  exec fence_strip_re (b :: bef) aft = Some (len, cs) -> aft = js "```".
Proof.
  intros He. apply exec_sound in He. destruct He as (x & rest & -> & _ & Hm).
  apply strip_match in Hm. destruct Hm as [[E _] | [-> ->]]; [discriminate|].
  reflexivity.
Qed.

(** After the start of the block the strip pass copies everything up to
    the three backticks that end it. *)
Lemma strip_tail body :
  forall b bef,
    replaceFrom fence_strip_re [] 0 (b :: bef) (body ++ js "```") = body.
Proof.
  induction body as [|c body IH]; intros b bef.
  - cbn [app]. cbn [replaceFrom js map list_ascii_of_string].
    change (N_of_ascii "`" :: N_of_ascii "`" :: N_of_ascii "`" :: [])
      with (js "```").
    rewrite strip_exec_end. reflexivity.
  - cbn [app replaceFrom].
    destruct (exec fence_strip_re (b :: bef) (c :: body ++ js "```"))
      as [[len cs]|] eqn:He.
    + apply strip_exec_inside in He. apply (f_equal (@length char)) in He.
      cbn [length] in He. rewrite length_app in He. cbn [length js map
        list_ascii_of_string] in He. lia.
    + f_equal. apply IH.
Qed.

Lemma hint_line_app l rest :
  forallb lower l = true -> hint_line (l ++ 10%N :: rest) = true.
Proof.
  induction l as [|c l IH]; [reflexivity|]. cbn [forallb]. intros H.
  apply andb_true_iff in H. destruct H as [Hc Hl].
  cbn [app hint_line]. rewrite Hc, (IH Hl). apply orb_true_r.
Qed.

Lemma hint_line_fence inner :
  hint_line (inner ++ js "```") = hint_line inner.
Proof.
  induction inner as [|c inner IH]; [reflexivity|].
  cbn [app hint_line]. now rewrite IH.
Qed.

Lemma strip_exec_no_hint inner :
  hint_line inner = false ->
  exec fence_strip_re [] (fenced inner) = None.
Proof.
  intros Hh.
  destruct (exec fence_strip_re [] (fenced inner)) as [[len cs]|] eqn:He;
    [exfalso|reflexivity].
  apply exec_sound in He. destruct He as (x & rest & E & _ & Hm).
  apply strip_match in Hm. unfold fenced in E.
  destruct Hm as [[_ (l & -> & Hl)] | [-> ->]].
  - rewrite <- !app_assoc in E. apply app_inv_head in E.
    rewrite <- hint_line_fence, E in Hh.
    pose proof (hint_line_app l rest Hl) as Ht. cbn [app] in Hh.
    exact (eq_true_false_abs _ Ht Hh).
  - rewrite app_nil_r in E. apply (f_equal (@length char)) in E.
    rewrite !length_app in E. cbn in E. lia.
Qed.

(** The fence test looks at the first three units only. *)
Lemma testFrom_inside s :
  forall b bef, testFrom fence_start_re (b :: bef) s = false.
Proof.
  induction s as [|c s IH]; intros b bef; cbn [testFrom];
    (destruct (exec fence_start_re (b :: bef) _) as [[len cs]|] eqn:He;
     [apply exec_sound in He; destruct He as (x & rest & _ & _ & Hm);
      open_match Hm | ]).
  - reflexivity.
  - apply IH.
Qed.

Lemma test_fence_start s :
  test fence_start_re s = JsString.startsWith s (js "```").
Proof.
  unfold test.
  destruct (JsString.startsWith s (js "```")) eqn:E.
  - destruct s as [|c1 [|c2 [|c3 s]]];
      cbn [JsString.startsWith js map list_ascii_of_string] in E;
      rewrite ?andb_false_r in E; try discriminate.
    apply andb_true_iff in E. destruct E as [E1 E].
    apply andb_true_iff in E. destruct E as [E2 E].
    apply andb_true_iff in E. destruct E as [E3 _].
    apply N.eqb_eq in E1, E2, E3. subst. reflexivity.
  - destruct s as [|c s]; cbn [testFrom].
    + reflexivity.
    + destruct (exec fence_start_re [] (c :: s)) as [[len cs]|] eqn:He.
      * exfalso. apply exec_sound in He.
        destruct He as (x & rest & E' & _ & Hm). open_match Hm.
        rewrite E' in E. cbn in E. discriminate.
      * apply testFrom_inside.
Qed.

(** Three backticks in a row. *)
Lemma has_fence_at z y :
  JsString.startsWith y (js "```") = true -> has_fence (z ++ y) = true.
Proof.
  intros H. induction z as [|c z IH]; cbn [app].
  - destruct y; cbn [has_fence]; now rewrite H.
  - cbn [has_fence]. rewrite IH. apply orb_true_r.
Qed.

Lemma has_fence_units a y :
  forallb (nec "`") a = true -> has_fence (a ++ y) = has_fence y.
Proof.
  induction a as [|c a IH]; [reflexivity|]. cbn [forallb]. intros H.
  apply andb_true_iff in H. destruct H as [Hc Ha].
  cbn [app has_fence]. rewrite (IH Ha).
  cbn [JsString.startsWith js map list_ascii_of_string].
  unfold nec, eqc, code in Hc. apply negb_true_iff in Hc. now rewrite Hc.
Qed.

Lemma startsWith_fence s :
  JsString.startsWith s (js "```") = true -> exists t, s = js "```" ++ t.
Proof.
  intros E. destruct s as [|c1 [|c2 [|c3 s]]];
    cbn [JsString.startsWith js map list_ascii_of_string] in E;
    rewrite ?andb_false_r in E; try discriminate.
  apply andb_true_iff in E. destruct E as [E1 E].
  apply andb_true_iff in E. destruct E as [E2 E].
  apply andb_true_iff in E. destruct E as [E3 _].
  apply N.eqb_eq in E1, E2, E3. subst. now exists s.
Qed.

(** Where a fence follows a non-empty text and the two together start
    with three backticks, so does the text followed by two. *)
Lemma fence_ahead a y :
  a <> [] ->
  JsString.startsWith (a ++ js "```" ++ y) (js "```") = true ->
  JsString.startsWith (a ++ js "``") (js "```") = true.
Proof.
  intros Ha E. apply startsWith_fence in E. destruct E as (t & E).
  destruct a as [|c1 [|c2 [|c3 a]]]; [congruence| | |];
    inversion E; subst; reflexivity.
Qed.

Lemma fence_starts bef aft len cs :
  exec fence_re bef aft = Some (len, cs) ->
  JsString.startsWith aft (js "```") = true.
Proof.
  intros He. apply exec_sound in He. destruct He as (x & rest & -> & _ & Hm).
  apply fence_match in Hm. destruct Hm as (body & -> & _).
  rewrite <- !app_assoc. apply startsWith_prefix.
Qed.

(** No fenced block starts inside a text that, followed by two backticks,
    holds no three in a row, whatever comes after a fence that follows
    it. *)
Lemma fence_not_before pre y z a :
  has_fence (pre ++ js "``") = false ->
  pre = z ++ a -> a <> [] ->
  forall bef, exec fence_re bef (a ++ js "```" ++ y) = None.
Proof.
  intros Hpre E Ha bef.
  destruct (exec fence_re bef (a ++ js "```" ++ y)) as [[len cs]|] eqn:He;
    [exfalso|reflexivity].
  apply fence_starts in He. apply (fence_ahead a y Ha) in He.
  rewrite E, <- app_assoc, (has_fence_at z _ He) in Hpre. discriminate.
Qed.

(** The fence pattern at an opening fence: the block ends at the first
    three backticks that follow. *)
Lemma fence_exec bef inner post :
  has_fence (inner ++ js "``") = false ->
  exec fence_re bef (fenced inner ++ post) =
  Some (length (fenced inner), [(1, fenced inner)]).
Proof.
  intros Hin. unfold fenced, exec, fence_re, lit, lit1.
  rewrite <- !app_assoc.
  cbn [list_ascii_of_string fold_right run app js map before after caps].
  rewrite !N.eqb_refl. cbn [before after caps].
  erewrite rep_lazy_min; [| | | ].
  4:{ cbn [before after caps app]. rewrite !N.eqb_refl.
      cbn [before after caps]. reflexivity. }
  2:{ apply forallb_forall. reflexivity. }
  2:{ intros x1 x2 E Hne. cbn [before after caps].
      destruct (JsString.startsWith (x2 ++ js "```" ++ post) (js "```"))
        eqn:Es.
      - apply (fence_ahead x2 post Hne) in Es.
        rewrite E, <- app_assoc, (has_fence_at x1 _ Es) in Hin.
        discriminate.
      - change (N_of_ascii "`" :: N_of_ascii "`" :: N_of_ascii "`" :: post)
          with (js "```" ++ post).
        destruct (x2 ++ js "```" ++ post) as [|c1 [|c2 [|c3 s]]] eqn:E2;
          try reflexivity;
          cbn [JsString.startsWith js map list_ascii_of_string] in Es;
          revert Es;
          repeat match goal with
                 | |- context [(N_of_ascii "`" =? ?c)%N] =>
                     destruct (N_of_ascii "`" =? c)%N
                 end;
          cbn [andb before after caps]; intros Es;
          first [reflexivity | discriminate]. }
  cbn [before caps]. apply f_equal.
  rewrite (consumed_eq _ _ (js "```" ++ inner ++ js "```"))
    by (cbn [before rev app js map list_ascii_of_string];
        rewrite ?rev_app_distr; cbn [rev app];
        repeat (rewrite <- app_assoc; cbn [app]); reflexivity).
  apply (f_equal (fun n : nat => (n, [(1, js "```" ++ inner ++ js "```")]))).
  cbn [length]. rewrite ?length_app, ?length_rev. cbn [length].
  rewrite ?length_app. cbn [length js map list_ascii_of_string]. lia.
Qed.

(** The scan of [split]: over a text in which no match starts, over a
    match, and over the units of a match. *)
Lemma splitFrom_copy r pre aft :
  forall cur bef,
    (forall z a, pre = z ++ a -> a <> [] ->
                 exec r (rev z ++ bef) (a ++ aft) = None) ->
    aft <> [] ->
    splitFrom r 0 cur bef (pre ++ aft) =
    splitFrom r 0 (rev pre ++ cur) (rev pre ++ bef) aft.
Proof.
  induction pre as [|c pre IH]; intros cur bef Hno Haft; [reflexivity|].
  cbn [app splitFrom].
  pose proof (Hno [] (c :: pre) eq_refl ltac:(discriminate)) as H0.
  cbn [rev app] in H0. rewrite H0.
  rewrite IH; [| |exact Haft].
  - cbn [rev]. now rewrite <- !app_assoc.
  - intros z a E Ha. specialize (Hno (c :: z) a). cbn [rev] in Hno.
    rewrite <- app_assoc in Hno. apply Hno; [now rewrite E | exact Ha].
Qed.

Lemma splitFrom_skip r s1 s2 :
  forall bef,
    splitFrom r (length s1) [] bef (s1 ++ s2) =
    splitFrom r 0 [] (rev s1 ++ bef) s2.
Proof.
  induction s1 as [|c s1 IH]; intros bef.
  - cbn [length app rev]. reflexivity.
  - cbn [length app splitFrom rev]. rewrite IH. now rewrite <- app_assoc.
Qed.

Lemma splitFrom_hit r cur bef c x rest cs :
  exec r bef ((c :: x) ++ rest) = Some (length (c :: x), cs) ->
  splitFrom r 0 cur bef ((c :: x) ++ rest) =
  Some (rev cur) :: map (fun i => capture i cs) (seq 1 (groups r)) ++
  splitFrom r 0 [] (rev (c :: x) ++ bef) rest.
Proof.
  intros He. cbn [app splitFrom] in *. rewrite He. cbn [length].
  rewrite splitFrom_skip. cbn [rev]. now rewrite <- app_assoc.
Qed.

(** The splitter on one fenced block between two texts. *)
Lemma split_fenced pre inner post :
  has_fence (pre ++ js "``") = false ->
  has_fence (inner ++ js "``") = false ->
  has_fence post = false ->
  split fence_re (pre ++ fenced inner ++ post) =
  [Some pre; Some (fenced inner); Some post].
Proof.
  intros Hpre Hin Hpost.
  assert (Hne : pre ++ fenced inner ++ post <> [])
    by (destruct pre; discriminate).
  unfold split. destruct (pre ++ fenced inner ++ post) as [|c0 s0] eqn:E0;
    [congruence|]. rewrite <- E0. clear E0 Hne c0 s0.
  rewrite splitFrom_copy.
  2:{ intros z a E Ha. unfold fenced. rewrite <- !app_assoc.
      exact (fence_not_before pre _ z a Hpre E Ha _). }
  2:{ discriminate. }
  change (fenced inner) with
    ((code "`" :: js "``" ++ inner ++ js "```")) at 1.
  rewrite (splitFrom_hit fence_re _ _ (code "`")
             (js "``" ++ inner ++ js "```") post [(1, fenced inner)]).
  2:{ exact (fence_exec _ inner post Hin). }
  change (seq 1 (groups fence_re)) with [1].
  cbn [map capture Nat.eqb app].
  rewrite (@splitFrom_whole fence_re post).
  - rewrite !app_nil_r, rev_involutive. reflexivity.
  - intros z a E.
    destruct (exec fence_re _ a) as [[len cs]|] eqn:He; [exfalso|reflexivity].
    apply fence_starts in He.
    rewrite E, (has_fence_at z a He) in Hpost. discriminate.
Qed.

(** The strip pass on a fenced block: with a hint line it leaves the
    text after that line, without one the opening fence stays. *)
Lemma strip_hint l body :
  forallb lower l = true ->
  replaceAll fence_strip_re [] (fenced (l ++ nl ++ body)) = body.
Proof.
  intros Hl. unfold replaceAll, fenced, nl.
  pose proof (@replaceFrom_hit fence_strip_re [] []
                (js "```" ++ l ++ [10%N]) (body ++ js "```") []
                ltac:(discriminate)) as H.
  rewrite <- !app_assoc in H. specialize (H (strip_exec_hint l _ Hl)).
  rewrite <- !app_assoc. refine (eq_trans H _).
  cbn [expand app]. rewrite !rev_app_distr. cbn [rev app].
  apply strip_tail.
Qed.

Lemma replaceFrom_miss r tmpl bef c aft :
  exec r bef (c :: aft) = None ->
  replaceFrom r tmpl 0 bef (c :: aft) =
  c :: replaceFrom r tmpl 0 (c :: bef) aft.
Proof. intros H. cbn [replaceFrom]. now rewrite H. Qed.

Lemma strip_no_hint inner :
  hint_line inner = false ->
  replaceAll fence_strip_re [] (fenced inner) = js "```" ++ inner.
Proof.
  intros Hh. unfold replaceAll.
  pose proof (strip_exec_no_hint inner Hh) as He.
  change (fenced inner)
    with (code "`" :: (js "``" ++ inner) ++ js "```") in *.
  rewrite (replaceFrom_miss _ _ _ _ _ He).
  now rewrite strip_tail.
Qed.

End FenceFacts.
(** ** The shape of a text block *)

Module BlockFacts.

Import Inline Render RenderSpec BlockSpec RenderFacts App AppFacts.
Import JsString.

#[local] Unset Implicit Arguments.

Lemma ends_with_list_snoc els e : ends_with_list (els ++ [e]) = isUl e.
Proof. unfold ends_with_list. rewrite last_last. now destruct e. Qed.

Lemma starts_with_break_snoc els e :
  starts_with_break els = false ->
  (els = [] -> e <> Br) ->
  starts_with_break (els ++ [e]) = false.
Proof.
  destruct els as [|x els]; cbn [app].
  - intros _ H. destruct e; try reflexivity. now contradiction (H eq_refl).
  - intros H _. exact H.
Qed.

Lemma lists_ok_snoc els e :
  forall prev,
    lists_ok prev els = true -> isUl e = false ->
    lists_ok prev (els ++ [e]) = true.
Proof.
  induction els as [|x els IH]; intros prev Hok He; cbn [app].
  - destruct e; try reflexivity. discriminate.
  - destruct x; cbn [lists_ok] in *; try (now apply IH).
    apply andb_true_iff in Hok. destruct Hok as [H1 H2].
    rewrite H1. cbn [andb]. now apply IH.
Qed.

Lemma lists_ok_snoc_list els items :
  forall prev,
    lists_ok prev els = true ->
    match els with [] => prev | _ :: _ => ends_with_list els end = false ->
    items <> [] ->
    lists_ok prev (els ++ [Ul items]) = true.
Proof.
  induction els as [|x els IH]; intros prev Hok Hend Hne; cbn [app].
  - cbn [lists_ok]. rewrite Hend. destruct items; [congruence|reflexivity].
  - assert (Hend' : forall p,
               isUl x = p ->
               match els with [] => p | _ :: _ => ends_with_list els end
               = false).
    { intros p Hp. destruct els as [|y els].
      - unfold ends_with_list in Hend. cbn [last] in Hend. subst p.
        now destruct x.
      - exact Hend. }
    destruct x; cbn [lists_ok] in *;
      try (apply IH; [exact Hok | now apply Hend' | exact Hne]).
    apply andb_true_iff in Hok. destruct Hok as [H1 H2].
    rewrite H1. cbn [andb]. apply IH; [exact H2 | now apply Hend' | exact Hne].
Qed.

(** What the line loop keeps: the lists are well formed, the block does
    not start with a break, and no list is the last element while items
    may still be pending. *)
Lemma flush_shape st :
  lists_ok false (elements st) = true ->
  starts_with_break (elements st) = false ->
  ends_with_list (elements st) = false ->
  lists_ok false (elements (flushListItems st)) = true /\
  starts_with_break (elements (flushListItems st)) = false /\
  listItems (flushListItems st) = [].
Proof.
  intros H1 H2 H3. unfold flushListItems.
  destruct (listItems st) as [|i items] eqn:E; cbn [elements listItems].
  - now rewrite E.
  - repeat split.
    + apply lists_ok_snoc_list; [exact H1 | | discriminate].
      destruct (elements st); [reflexivity | exact H3].
    + apply starts_with_break_snoc; [exact H2 | discriminate].
Qed.

Lemma push_shape e st :
  isUl e = false -> (elements st = [] -> e <> Br) ->
  lists_ok false (elements st) = true ->
  starts_with_break (elements st) = false ->
  lists_ok false (elements (push e st)) = true /\
  starts_with_break (elements (push e st)) = false /\
  ends_with_list (elements (push e st)) = false.
Proof.
  intros He Hb H1 H2. unfold push. cbn [elements]. repeat split.
  - now apply lists_ok_snoc.
  - now apply starts_with_break_snoc.
  - now rewrite ends_with_list_snoc.
Qed.

Lemma processLine_shape st line :
  lists_ok false (elements st) = true ->
  starts_with_break (elements st) = false ->
  ends_with_list (elements st) = false ->
  lists_ok false (elements (processLine st line)) = true /\
  starts_with_break (elements (processLine st line)) = false /\
  ends_with_list (elements (processLine st line)) = false.
Proof.
  intros H1 H2 H3.
  destruct (flush_shape st H1 H2 H3) as (F1 & F2 & _).
  unfold processLine.
  destruct (startsWith line (js "## "));
    [apply push_shape; [reflexivity | discriminate | exact F1 | exact F2]|].
  destruct (startsWith line (js "### "));
    [apply push_shape; [reflexivity | discriminate | exact F1 | exact F2]|].
  destruct (startsWith (trim line) (js "* "));
    [cbn [elements]; now repeat split|].
  destruct (trim line);
    [|apply push_shape; [reflexivity | discriminate | exact F1 | exact F2]].
  cbv zeta.
  destruct (elements (flushListItems st)) as [|x els] eqn:E.
  - rewrite E. now repeat split.
  - rewrite <- E in F1, F2.
    apply push_shape; [reflexivity | | exact F1 | exact F2].
    rewrite E. discriminate.
Qed.

Lemma lines_shape lines :
  forall st,
    lists_ok false (elements st) = true ->
    starts_with_break (elements st) = false ->
    ends_with_list (elements st) = false ->
    lists_ok false (elements (fold_left processLine lines st)) = true /\
    starts_with_break (elements (fold_left processLine lines st)) = false /\
    ends_with_list (elements (fold_left processLine lines st)) = false.
Proof.
  induction lines as [|line lines IH]; intros st H1 H2 H3; cbn [fold_left].
  - now repeat split.
  - destruct (processLine_shape st line H1 H2 H3) as (P1 & P2 & P3).
    now apply IH.
Qed.

(** The lines of a block of white space are white space. *)
Lemma splitOn_spaces block :
  forallb isSpace block = true ->
  Forall (fun line => forallb isSpace line = true) (splitOn 10%N block).
Proof.
  induction block as [|c block IH]; cbn [forallb splitOn].
  - intros _. repeat constructor.
  - intros H. apply andb_true_iff in H. destruct H as [Hc Hb].
    specialize (IH Hb). destruct (c =? 10)%N.
    + constructor; [reflexivity | exact IH].
    + destruct (splitOn 10%N block) as [|l ls].
      * repeat constructor. cbn [forallb]. now rewrite Hc.
      * inversion IH; subst. constructor; [|assumption].
        cbn [forallb]. now rewrite Hc.
Qed.

Lemma trim_spaces line : forallb isSpace line = true -> trim line = [].
Proof.
  intros H. rewrite <- blank_spaces in H. unfold blank in H.
  now destruct (trim line).
Qed.

Lemma startsWith_space line a p :
  isSpace (code a) = false -> forallb isSpace line = true ->
  startsWith line (code a :: p) = false.
Proof.
  intros Ha H. destruct line as [|c line]; [reflexivity|].
  cbn [forallb] in H. apply andb_true_iff in H. destruct H as [Hc _].
  cbn [startsWith]. destruct (N.eqb_spec (code a) c) as [<-|]; [|reflexivity].
  congruence.
Qed.

Lemma processLine_space line :
  forallb isSpace line = true ->
  processLine (LS [] []) line = LS [] [].
Proof.
  intros H. unfold processLine.
  change (js "## ") with (code "#" :: js "# ").
  change (js "### ") with (code "#" :: js "## ").
  rewrite !(startsWith_space line "#") by (reflexivity || exact H).
  rewrite (trim_spaces line H). reflexivity.
Qed.

End BlockFacts.

(** ** The page between the handlers *)

Module DisplayFacts.

Import Inline Render RenderSpec App AppSpec Display DisplaySpec.
Import Service ServiceSpec SplitFacts RenderFacts AppFacts.

#[local] Unset Implicit Arguments.

Lemma step_shape w e :
  one_request w -> settled_shape (ui w) -> settled_shape (ui (step w e)).
Proof.
  destruct w as [[p g l err] fl]. unfold one_request, settled_shape.
  cbn [ui inflight isLoading error generatedPost].
  intros Hone [Hl He]. destruct e as [|text|o]; cbn [step ui inflight].
  - unfold handleGeneratePost. cbn [prompt isLoading].
    destruct (blank p || l); cbn [ui isLoading error generatedPost].
    + now split.
    + split; [now split | congruence].
  - cbn [isLoading error generatedPost]. now split.
  - destruct fl as [|q rest]; cbn [ui isLoading error generatedPost].
    + now split.
    + assert (Hload : l = true).
      { destruct Hone as [[_ H]|[H _]]; [discriminate | exact H]. }
      destruct (Hl Hload) as [-> ->].
      destruct o as [t|[m|]];
        cbn [settle isLoading error generatedPost prompt].
      * split; [discriminate | congruence].
      * split; [discriminate | reflexivity].
      * split; [discriminate | reflexivity].
Qed.

Lemma run_shape events : settled_shape (ui (run_events events)).
Proof.
  unfold run_events.
  assert (G : forall w, one_request w -> settled_shape (ui w) ->
                        settled_shape (ui (fold_left step events w))).
  { induction events as [|e es IH]; intros w H1 H2; cbn [fold_left];
      [exact H2|].
    apply IH; [now apply step_one_request | now apply step_shape]. }
  apply G.
  - left. split; reflexivity.
  - split; [discriminate | reflexivity].
Qed.

Lemma panels_count st :
  length (panels st) =
  if isLoading st && errorShown (error st) then 2 else 1.
Proof.
  destruct st as [p g l err]. unfold panels, errorShown.
  cbn [isLoading error generatedPost].
  destruct l, err as [[|c m]|], g as [|d g]; reflexivity.
Qed.

(** The errors a run holds when the service answers its requests. *)
Lemma served_error events :
  forall w,
    Forall served events ->
    error (ui w) = None \/ error (ui w) = Some failureMessage ->
    error (ui (fold_left step events w)) = None \/
    error (ui (fold_left step events w)) = Some failureMessage.
Proof.
  induction events as [|e es IH]; intros w Hs Hw; cbn [fold_left];
    [exact Hw|].
  inversion Hs as [|? ? He Hes]; subst. apply IH; [exact Hes|].
  destruct w as [[p g l err] fl]. cbn [ui error] in *.
  destruct e as [|text|o]; cbn [step ui inflight].
  - unfold handleGeneratePost. cbn [prompt isLoading].
    destruct (blank p || l); cbn [ui error]; [exact Hw | now left].
  - exact Hw.
  - destruct fl as [|q rest]; cbn [ui error]; [exact Hw|].
    destruct He as (r & ->). destruct r; cbn [generateBlogPost settle error];
      [exact Hw | now right].
Qed.

End DisplayFacts.

(** ** The theme *)

Module ThemeFacts.

Import Theme ThemeSpec.

#[local] Unset Implicit Arguments.

Lemma eqs_eq a : forall b, eqs a b = true <-> a = b.
Proof.
  induction a as [|x a IH]; intros [|y b]; cbn [eqs];
    try (split; [discriminate | congruence || discriminate]);
    [split; reflexivity|].
  rewrite andb_true_iff, N.eqb_eq, IH. split.
  - intros [-> ->]. reflexivity.
  - intros E. inversion E. now split.
Qed.

Lemma sync_in_sync t e : in_sync (mkPage t (syncTheme t e)).
Proof.
  unfold in_sync, syncTheme. cbn [theme env].
  destruct (eqs t (js "dark")); split; reflexivity.
Qed.

Lemma mount_in_sync pd e : in_sync (mount pd e).
Proof.
  unfold mount. cbv zeta.
  destruct (eqs (initialTheme (stored e) pd) (js "light")) eqn:E.
  - apply eqs_eq in E. rewrite E. split; reflexivity.
  - apply sync_in_sync.
Qed.

Lemma clicks_in_sync n : forall p, in_sync p -> in_sync (clicks n p).
Proof.
  induction n as [|n IH]; intros p H; cbn [clicks]; [exact H|].
  apply IH. apply sync_in_sync.
Qed.

Lemma toggle_valid t : valid (toggleTheme t) = true.
Proof. unfold toggleTheme. now destruct (eqs t (js "light")). Qed.

Lemma clicks_valid n : forall p, valid (theme p) = true ->
                                 valid (theme (clicks n p)) = true.
Proof.
  induction n as [|n IH]; intros p H; cbn [clicks]; [exact H|].
  apply IH. apply toggle_valid.
Qed.

(** A page in step with its storage comes back from a reload as it is,
    if its theme is one of the two. *)
Lemma reload_same p pd :
  in_sync p -> valid (theme p) = true -> mount pd (env p) = p.
Proof.
  destruct p as [t [s d]]. unfold in_sync, valid. cbn [theme env stored
    darkClass]. intros [Hd Hs] Hv. subst d s. unfold mount.
  cbn [stored]. destruct (eqs t (js "dark")) eqn:Ed.
  - apply eqs_eq in Ed. subst t. reflexivity.
  - rewrite orb_false_r in Hv. apply eqs_eq in Hv. subst t. reflexivity.
Qed.

End ThemeFacts.

(** ** The copy button *)

Module CopyFacts.

Import Copy.

#[local] Unset Implicit Arguments.

Lemma copyStep_pending st e :
  (isCopied st = true -> timers st <> []) ->
  isCopied (copyStep st e) = true -> timers (copyStep st e) <> [].
Proof.
  intros H. destruct e as [now| |]; cbn [copyStep].
  - cbn [timers]. intros _. now destruct (timers st).
  - exact H.
  - destruct (timers st) as [|t rest] eqn:E;
      [rewrite <- E in H |- *; exact H|].
    cbn [isCopied]. discriminate.
Qed.

Lemma copyRun_pending events :
  forall st,
    (isCopied st = true -> timers st <> []) ->
    isCopied (fold_left copyStep events st) = true ->
    timers (fold_left copyStep events st) <> [].
Proof.
  induction events as [|e es IH]; intros st H; cbn [fold_left]; [exact H|].
  apply IH. now apply copyStep_pending.
Qed.

End CopyFacts.

(** ** The properties of the specification *)

Module Claims.

Import MatchSpec RegExpFacts ReplaceFacts PatternFacts ForwardFacts.
Import Inline Render Markup RenderSpec App AppSpec.
Import MarkupFacts InlineFacts PassFacts LinkFacts EscapeFacts.
Import LineFacts SplitFacts RenderFacts AppFacts.

#[local] Unset Implicit Arguments.

(** Two things the formatter does that the properties below do not rule
    out.  A double quote of a link target is copied into the [href] value
    as it is and ends it there. *)
Example href_keeps_quote :
  applyInlineFormatting
    (js "[x](http://a" ++ dq ++ js "onmouseover=" ++ dq ++ js "alert)") =
  link_open ++ js "http://a" ++ dq ++ js "onmouseover=" ++ dq ++ js "alert"
  ++ link_attrs ++ js "x" ++ link_close.
Proof. vm_compute. reflexivity. Qed.

(** The underscore of the [target] attribute of a link tag opens an
    underscore italic when another underscore follows on the line. *)
Example underscore_inside_link_tag :
  applyInlineFormatting (js "[x](http://a.b) c_d") =
  link_open ++ js "http://a.b" ++ dq ++ js " target=" ++ dq ++ js "<em>"
  ++ link_attrs_end ++ js "x</a> c</em>d".
Proof. vm_compute. reflexivity. Qed.

(** C1.  Whatever the input, the markup of the inline formatter is a
    sequence of units other than [&], [<], [>], of the entities [&amp;],
    [&lt;], [&gt;] and of pieces of the emitted tags; [<script] occurs
    nowhere in it; the same holds of every markup string of every node of
    the renderer, and the text of a code block holds no angle bracket or
    bare ampersand at all.  The script example comes out escaped. *)
Theorem C1_no_raw_markup :
  forall text content : jsstring,
    Safe (applyInlineFormatting text) /\
    ~ occurs (js "<script") (applyInlineFormatting text) /\
    Forall SafeNode (rendered content) /\
    applyInlineFormatting (js "<script>alert(1)</script>") =
    js "&lt;script&gt;alert(1)&lt;/script&gt;".
Proof.
  intros text content. split; [apply applyInlineFormatting_Safe|].
  split; [apply Safe_no_script, applyInlineFormatting_Safe|].
  split; [|vm_compute; reflexivity].
  unfold rendered, renderContent. destruct content as [|c s]; [constructor|].
  destruct (mapBlocks (split fence_re (c :: s))) as [nodes|] eqn:E;
    [|constructor].
  exact (mapBlocks_Safe _ _ E).
Qed.

(** C2.  No link is made of a construct whose target does not begin with
    [http://] or [https://]: the link pattern does not match at its
    bracket, and on a line with no other bracket the link rule leaves the
    escaped text as it is.  Whenever the pattern does match, the target
    begins with one of the two schemes and holds no white space and no
    closing parenthesis, and the replacement is the link tag around the
    label.  The [javascript:] example comes out as its own text. *)
Theorem C2_link_needs_http :
  (forall pre label url post : jsstring,
      forallb (nec "[") (pre ++ label ++ url ++ post) = true ->
      forallb (nec "]") label = true ->
      JsString.startsWith url (js "http://") = false ->
      JsString.startsWith url (js "https://") = false ->
      let line := pre ++ js "[" ++ label ++ js "](" ++ url ++ js ")" ++ post
      in linkPass (escapeHtml line) = escapeHtml line) /\
  (forall bef label url post : jsstring,
      forallb (nec "]") label = true ->
      JsString.startsWith url (js "http://") = false ->
      JsString.startsWith url (js "https://") = false ->
      exec link_re bef (js "[" ++ label ++ js "](" ++ url ++ js ")" ++ post)
      = None) /\
  (forall (bef aft : jsstring) (len : nat) (cs : captures),
      exec link_re bef aft = Some (len, cs) ->
      exists label url rest,
        aft = js "[" ++ label ++ js "](" ++ url ++ js ")" ++ rest /\
        (JsString.startsWith url (js "http://") = true \/
         JsString.startsWith url (js "https://") = true) /\
        forallb url_class url = true /\
        expand (groups link_re) link_tmpl (firstn len aft) cs =
        link_open ++ url ++ link_attrs ++ label ++ link_close) /\
  applyInlineFormatting (js "[click](javascript:alert(1))") =
  js "[click](javascript:alert(1))".
Proof.
  split; [intros; now apply linkPass_line_rejects|].
  split; [intros; now apply link_rejects|].
  split; [intros bef aft len cs; apply link_accepts|].
  vm_compute. reflexivity.
Qed.

Lemma C2_link_needs_http_witness :
  linkPass (escapeHtml (js "see [click](javascript:alert(1)) now")) =
  escapeHtml (js "see [click](javascript:alert(1)) now") /\
  exec link_re [] (js "[click](javascript:alert(1))") = None /\
  exists label url rest,
    js "[docs](https://a.b/c) end" =
    js "[" ++ label ++ js "](" ++ url ++ js ")" ++ rest /\
    (JsString.startsWith url (js "http://") = true \/
     JsString.startsWith url (js "https://") = true) /\
    forallb url_class url = true /\
    expand (groups link_re) link_tmpl
      (firstn 21 (js "[docs](https://a.b/c) end"))
      [(2, js "https://a.b/c"); (1, js "docs")] =
    link_open ++ url ++ link_attrs ++ label ++ link_close.
Proof.
  destruct C2_link_needs_http as (H1 & H2 & H3 & _).
  split; [|split].
  - apply (H1 (js "see ") (js "click") (js "javascript:alert(1") (js ") now"));
      reflexivity.
  - apply (H2 [] (js "click") (js "javascript:alert(1") (js ")"));
      reflexivity.
  - apply (H3 []). vm_compute. reflexivity.
Defined.

(** C3.  An unterminated fence at the start of the input: the splitter
    leaves the input as one block, as the claim says, but the block
    begins with three backticks, so the renderer makes a code block of
    it. *)
Theorem C3_unterminated_fence_at_start :
  let content := js "```js" ++ nl ++ js "let x = 1;" in
  split fence_re content = [Some content] /\
  renderContent content = Returns (Some [Pre (js "let x = 1;")]).
Proof. vm_compute. split; reflexivity. Qed.

(** C4.  The link, bold and italic rules run over the whole line before
    the inline-code rule, so they act on the text between backticks: bold
    inside backticks comes out as a nested bold span and not as the
    literal asterisks, and likewise for both italic forms and for a link.
    The fenced path, which sets code apart before any rule runs, keeps the
    same text as it is. *)
Theorem C4_rules_act_inside_backticks :
  applyInlineFormatting (js "`**x**`") =
  code_open ++ js "<strong>x</strong>" ++ code_close /\
  applyInlineFormatting (js "`**x**`") <>
  code_open ++ js "**x**" ++ code_close /\
  applyInlineFormatting (js "`_x_`") =
  code_open ++ js "<em>x</em>" ++ code_close /\
  applyInlineFormatting (js "`*x*`") =
  code_open ++ js "<em>x</em>" ++ code_close /\
  applyInlineFormatting (js "`[a](http://b.c)`") =
  code_open ++ link_open ++ js "http://b.c" ++ link_attrs ++ js "a"
  ++ link_close ++ code_close /\
  renderContent (js "```" ++ nl ++ js "**x**" ++ nl ++ js "```") =
  Returns (Some [Div []; Pre (js "**x**" ++ nl); Div []]).
Proof.
  vm_compute. repeat split; try reflexivity. discriminate.
Qed.


(** C6.  The block splitter returns defined strings only, and putting
    them together in order, the fenced blocks with their delimiters,
    gives back the input. *)
Theorem C6_split_lossless :
  forall content : jsstring,
    exists blocks,
      split fence_re content = map Some blocks /\
      concat blocks = content.
Proof.
  intros content. destruct (split_pieces content) as (ps & E & Hc & _).
  now exists ps.
Qed.

(** C7.  The three-item example gives one list of the three formatted
    items.  In general a run of list-item lines is kept in the buffer and
    comes out as one list, with one item per line, at the end of the
    block or at the first line that is not a list item, which adds no
    further list. *)
Theorem C7_list_run :
  rendered (js "* a" ++ nl ++ js "* b" ++ nl ++ js "* c") =
  [Div [Ul [js "a"; js "b"; js "c"]]] /\
  (forall (els : list Element) (items : list jsstring),
      items <> [] ->
      Forall (fun line => isListItem line = true) items ->
      fold_left processLine items (LS els []) = LS els items /\
      elements (flushListItems (fold_left processLine items (LS els []))) =
      els ++ [Ul (map itemHtml items)] /\
      forall line,
        isListItem line = false ->
        exists tail,
          fold_left processLine (items ++ [line]) (LS els []) =
          LS (els ++ Ul (map itemHtml items) :: tail) [] /\
          forallb (fun e => negb (isUl e)) tail = true).
Proof.
  split; [vm_compute; reflexivity|].
  intros els items Hne Hit.
  pose proof (processLine_items items (LS els []) Hit) as Hrun.
  cbn [elements listItems app] in Hrun.
  split; [exact Hrun|]. split.
  - rewrite Hrun, flush_items by exact Hne. reflexivity.
  - intros line Hl. rewrite fold_left_app, Hrun. cbn [fold_left].
    destruct (processLine_other (LS els items) line Hl) as (tail & -> & Ht).
    exists tail. rewrite flush_items by exact Hne. cbn [elements].
    now rewrite <- app_assoc.
Qed.

Lemma C7_list_run_witness :
  elements (flushListItems
    (fold_left processLine [js "* a"; js "  * b"] (LS [H2 (js "t")] []))) =
  [H2 (js "t")] ++ [Ul (map itemHtml [js "* a"; js "  * b"])].
Proof.
  apply (proj2 C7_list_run [H2 (js "t")] [js "* a"; js "  * b"]).
  - discriminate.
  - repeat constructor.
Defined.

(** C8.  The renderer returns for every input and throws for none; for
    the empty string it returns [null], which the page shows as no node
    at all. *)
Theorem C8_renderer_total :
  forall content : jsstring,
    (exists result, renderContent content = Returns result) /\
    renderContent [] = Returns None /\
    rendered [] = [].
Proof.
  intros content. split; [|split; reflexivity].
  unfold renderContent. destruct content as [|c s]; [now eexists|].
  destruct (split_pieces (c :: s)) as (ps & -> & _).
  destruct (mapBlocks_returns ps) as (nodes & -> & _). now eexists.
Qed.

(** C9.  While a request is outstanding, and when the prompt is empty or
    white space only, the generate action changes nothing and makes no
    request; so along every sequence of events at most one request is
    outstanding, and one is exactly when the loading flag is set. *)
Theorem C9_one_request_in_flight :
  (forall st : AppState,
      isLoading st = true \/ forallb JsString.isSpace (prompt st) = true ->
      handleGeneratePost st = (st, None)) /\
  (forall (w : World),
      isLoading (ui w) = true \/
      forallb JsString.isSpace (prompt (ui w)) = true ->
      step w Generate = w) /\
  (forall events : list event,
      one_request (run_events events) /\
      length (inflight (run_events events)) <= 1).
Proof.
  assert (G : forall st,
             isLoading st = true \/
             forallb JsString.isSpace (prompt st) = true ->
             handleGeneratePost st = (st, None)).
  { intros st H. unfold handleGeneratePost. rewrite blank_spaces.
    destruct H as [-> | ->]; [now rewrite orb_true_r | reflexivity]. }
  split; [exact G|]. split.
  - intros [st fl] H. simpl in *. now rewrite (G st H).
  - intros events. pose proof (run_one_request events) as H.
    split; [exact H|].
    destruct H as [[_ ->] | [_ (q & ->)]]; simpl; lia.
Qed.

Lemma C9_one_request_in_flight_witness :
  handleGeneratePost (mkApp (js "cats") [] true None) =
  (mkApp (js "cats") [] true None, None) /\
  step (mkWorld (mkApp (js "  ") [] false None) []) Generate =
  mkWorld (mkApp (js "  ") [] false None) [].
Proof.
  destruct C9_one_request_in_flight as (H1 & H2 & _). split.
  - apply H1. left. reflexivity.
  - apply H2. right. reflexivity.
Defined.

(** C10.  The heading tests read the line as it is: a line with white
    space before its [## ] or [### ] goes to the paragraph branch, whole.
    The list test reads the trimmed line: a marker after white space
    makes a list item. *)
Theorem C10_heading_not_trimmed :
  (forall (st : lines_state) (ws t : jsstring),
      ws <> [] -> forallb JsString.isSpace ws = true ->
      processLine st (ws ++ js "## " ++ t) =
      push (P (applyInlineFormatting (ws ++ js "## " ++ t)))
           (flushListItems st) /\
      processLine st (ws ++ js "### " ++ t) =
      push (P (applyInlineFormatting (ws ++ js "### " ++ t)))
           (flushListItems st)) /\
  (forall (st : lines_state) (ws t : jsstring),
      forallb JsString.isSpace ws = true ->
      existsb (fun c => negb (JsString.isSpace c)) t = true ->
      processLine st (ws ++ js "* " ++ t) =
      LS (elements st) (listItems st ++ [ws ++ js "* " ++ t])) /\
  rendered (js "  ## Title") = [Div [P (js "  ## Title")]] /\
  rendered (js "## Title") = [Div [H2 (js "Title")]] /\
  rendered (js "  * item") = [Div [Ul [js "* item"]]].
Proof.
  split; [|split; [|vm_compute; repeat split; reflexivity]].
  - intros st ws t Hne Hws. split.
    + apply (processLine_indented st ws (code "#") (js "# " ++ t));
        auto.
    + apply (processLine_indented st ws (code "#") (js "## " ++ t));
        auto.
  - intros st ws t Hws Ht. apply processLine_item.
    now apply listItem_marker.
Qed.

Lemma C10_heading_not_trimmed_witness :
  processLine (LS [] []) (js "  " ++ js "## " ++ js "Title") =
  push (P (applyInlineFormatting (js "  " ++ js "## " ++ js "Title")))
       (flushListItems (LS [] [])) /\
  processLine (LS [] []) (js " " ++ js "* " ++ js "x") =
  LS [] [js " " ++ js "* " ++ js "x"].
Proof.
  destruct C10_heading_not_trimmed as (H1 & H2 & _). split.
  - apply (H1 (LS [] []) (js "  ") (js "Title")); [discriminate|reflexivity].
  - apply (H2 (LS [] []) (js " ") (js "x")); reflexivity.
Defined.

End Claims.

(** * Further properties of the code *)

Module Extras.

Import MatchSpec RegExpFacts ReplaceFacts PatternFacts ForwardFacts.
Import Inline Render Markup TextSpec FenceSpec RenderSpec BlockSpec.
Import App AppSpec Display DisplaySpec Theme ThemeSpec.
Import Service ServiceSpec Copy.
Import MarkupFacts InlineFacts PassFacts LinkFacts EscapeFacts.
Import LineFacts RuleFacts TextFacts SplitFacts FenceFacts.
Import RenderFacts AppFacts BlockFacts DisplayFacts ThemeFacts CopyFacts.

#[local] Unset Implicit Arguments.

(** X1.  A line that holds no bracket, asterisk, underscore or backtick
    comes out of the formatter as its escaped text: no rule acts on it.
    If it holds no ampersand or angle bracket either, it comes out as it
    is. *)
Theorem X1_plain_line (line : jsstring) :
  plain_text line = true ->
  applyInlineFormatting line = escapeHtml line /\
  (forallb (fun c => negb (special c)) line = true ->
   applyInlineFormatting line = line).
Proof.
  intros H.
  assert (E : applyInlineFormatting line = escapeHtml line).
  { unfold applyInlineFormatting.
    destruct (passes_plain _ (escapeHtml_plain_text _ H))
      as (-> & -> & -> & -> & ->). reflexivity. }
  split; [exact E|]. intros Hs. rewrite E. now apply escapeHtml_plain.
Qed.

Lemma X1_plain_line_witness :
  applyInlineFormatting (js "1 < 2 & 3") = escapeHtml (js "1 < 2 & 3") /\
  applyInlineFormatting (js "plain (text)") = js "plain (text)".
Proof.
  split.
  - apply (X1_plain_line (js "1 < 2 & 3")). reflexivity.
  - apply (X1_plain_line (js "plain (text)")); reflexivity.
Defined.

(** X2.  The bold rule: on a line whose only units of a rule are the two
    asterisk pairs around [t], the formatter wraps the escaped [t] in one
    [strong] element and escapes the text around it.  [t] may be empty:
    four asterisks in a row make an empty [strong] element. *)
Theorem X2_bold_rule (pre t post : jsstring) :
  plain_text pre = true -> plain_text t = true -> plain_text post = true ->
  forallb dot t = true ->
  applyInlineFormatting (pre ++ js "**" ++ t ++ js "**" ++ post) =
  escapeHtml pre ++ js "<strong>" ++ escapeHtml t ++ js "</strong>" ++
  escapeHtml post.
Proof.
  intros Hpre Ht Hpost Hd.
  apply escapeHtml_plain_text in Hpre, Ht, Hpost.
  assert (Hd' : forallb dot (escapeHtml t) = true)
    by (apply escapeHtml_class; [reflexivity | exact Hd]).
  unfold applyInlineFormatting. rewrite !escapeHtml_app.
  rewrite (escapeHtml_plain (js "**")) by reflexivity.
  set (p := escapeHtml pre) in *. set (u := escapeHtml t) in *.
  set (q := escapeHtml post) in *.
  unfold linkPass.
  rewrite (@replaceAll_untouched link_re link_tmpl (eqc "[") _ link_starts)
    by units_ok.
  unfold boldPass.
  replace (p ++ js "**" ++ u ++ js "**" ++ q)
    with (p ++ (js "**" ++ u ++ js "**") ++ q)
    by (now rewrite <- !app_assoc).
  rewrite (replaceAll_first bold_re bold_tmpl (eqc "*") p _ [(1, u)] q
             bold_starts (plain_no_star _ Hpre)).
  2:{ discriminate. }
  2:{ rewrite <- !app_assoc.
      apply bold_exec; [exact Hd' | exact (plain_no_star _ Ht)]. }
  rewrite (replaceFrom_untouched bold_re bold_tmpl (eqc "*") q bold_starts
             (plain_no_star _ Hpost)).
  rewrite bold_expand. cbn [cap capture Nat.eqb].
  assert (Hall : plain_text
                   (p ++ (js "<strong>" ++ u ++ js "</strong>") ++ q) = true).
  { rewrite !plain_text_app, Hpre, Ht, Hpost. reflexivity. }
  destruct (passes_plain _ Hall) as (_ & _ & -> & -> & ->).
  now rewrite <- !app_assoc.
Qed.

Lemma X2_bold_rule_witness :
  applyInlineFormatting (js "a " ++ js "**" ++ js "b<c" ++ js "**" ++ js " d")
  = escapeHtml (js "a ") ++ js "<strong>" ++ escapeHtml (js "b<c") ++
    js "</strong>" ++ escapeHtml (js " d").
Proof.
  apply (X2_bold_rule (js "a ") (js "b<c") (js " d")); reflexivity.
Defined.

(** X3.  The underscore rule: a non-empty text between two underscores
    becomes one [em] element around its escaped text. *)
Theorem X3_underscore_rule (pre t post : jsstring) :
  plain_text pre = true -> plain_text t = true -> plain_text post = true ->
  t <> [] ->
  applyInlineFormatting (pre ++ js "_" ++ t ++ js "_" ++ post) =
  escapeHtml pre ++ js "<em>" ++ escapeHtml t ++ js "</em>" ++
  escapeHtml post.
Proof.
  intros Hpre Ht Hpost Hne.
  apply escapeHtml_plain_text in Hpre, Ht, Hpost.
  apply escapeHtml_nonempty in Hne.
  unfold applyInlineFormatting. rewrite !escapeHtml_app.
  rewrite (escapeHtml_plain (js "_")) by reflexivity.
  set (p := escapeHtml pre) in *. set (u := escapeHtml t) in *.
  set (q := escapeHtml post) in *.
  unfold linkPass.
  rewrite (@replaceAll_untouched link_re link_tmpl (eqc "[") _ link_starts)
    by units_ok.
  unfold boldPass.
  rewrite (@replaceAll_untouched bold_re bold_tmpl (eqc "*") _ bold_starts)
    by units_ok.
  unfold underscorePass.
  replace (p ++ js "_" ++ u ++ js "_" ++ q)
    with (p ++ (js "_" ++ u ++ js "_") ++ q)
    by (now rewrite <- !app_assoc).
  rewrite (replaceAll_first underscore_re em_tmpl (eqc "_") p _ [(1, u)] q
             underscore_starts (plain_no_underscore _ Hpre)).
  2:{ discriminate. }
  2:{ rewrite <- !app_assoc.
      apply underscore_exec; [exact Hne | exact (plain_no_underscore _ Ht)]. }
  rewrite (replaceFrom_untouched underscore_re em_tmpl (eqc "_") q
             underscore_starts (plain_no_underscore _ Hpost)).
  rewrite underscore_expand. cbn [cap capture Nat.eqb].
  assert (Hall : plain_text (p ++ (js "<em>" ++ u ++ js "</em>") ++ q) = true).
  { rewrite !plain_text_app, Hpre, Ht, Hpost. reflexivity. }
  destruct (passes_plain _ Hall) as (_ & _ & _ & -> & ->).
  now rewrite <- !app_assoc.
Qed.

Lemma X3_underscore_rule_witness :
  applyInlineFormatting (js "a " ++ js "_" ++ js "b&c" ++ js "_" ++ js " d")
  = escapeHtml (js "a ") ++ js "<em>" ++ escapeHtml (js "b&c") ++
    js "</em>" ++ escapeHtml (js " d").
Proof.
  apply (X3_underscore_rule (js "a ") (js "b&c") (js " d"));
    try reflexivity.
  discriminate.
Defined.

(** X4.  The asterisk italic rule: a text between two single asterisks
    that starts with a unit other than white space becomes one [em]
    element around its escaped text. *)
Theorem X4_asterisk_rule (pre t post : jsstring) :
  plain_text pre = true -> plain_text t = true -> plain_text post = true ->
  holds (fun c => negb (JsString.isSpace c)) t = true ->
  applyInlineFormatting (pre ++ js "*" ++ t ++ js "*" ++ post) =
  escapeHtml pre ++ js "<em>" ++ escapeHtml t ++ js "</em>" ++
  escapeHtml post.
Proof.
  intros Hpre Ht Hpost Hc.
  assert (Hc' : exists c u, escapeHtml t = c :: u /\ italic_start c = true).
  { destruct t as [|c t]; [discriminate|]. cbn [holds] in Hc.
    cbn [plain_text forallb] in Ht. apply andb_true_iff in Ht.
    destruct Ht as [Hr _]. apply negb_true_iff in Hr.
    apply rule_unit_cases in Hr. destruct Hr as (_ & Hs & _).
    rewrite escapeHtml_units. cbn [flat_map]. unfold escape_unit.
    destruct (eqc "&" c); [eexists _, _; split; [reflexivity|reflexivity]|].
    destruct (eqc "<" c); [eexists _, _; split; [reflexivity|reflexivity]|].
    destruct (eqc ">" c); [eexists _, _; split; [reflexivity|reflexivity]|].
    eexists _, _. split; [reflexivity|]. unfold italic_start.
    apply negb_true_iff in Hc. now rewrite Hc, Hs. }
  apply escapeHtml_plain_text in Hpre, Ht, Hpost.
  unfold applyInlineFormatting. rewrite !escapeHtml_app.
  rewrite (escapeHtml_plain (js "*")) by reflexivity.
  set (p := escapeHtml pre) in *. set (u := escapeHtml t) in *.
  set (q := escapeHtml post) in *.
  unfold linkPass.
  rewrite (@replaceAll_untouched link_re link_tmpl (eqc "[") _ link_starts)
    by units_ok.
  unfold boldPass, replaceAll.
  rewrite (replaceFrom_few bold_re bold_tmpl (eqc "*") 4 _ bold_needs_four).
  2:{ rewrite !count_app.
      rewrite (count_none _ p (plain_no_star _ Hpre)),
        (count_none _ u (plain_no_star _ Ht)),
        (count_none _ q (plain_no_star _ Hpost)). cbn. lia. }
  unfold underscorePass.
  rewrite (@replaceAll_untouched underscore_re em_tmpl (eqc "_") _
             underscore_starts) by units_ok.
  unfold asteriskPass.
  replace (p ++ js "*" ++ u ++ js "*" ++ q)
    with (p ++ (js "*" ++ u ++ js "*") ++ q)
    by (now rewrite <- !app_assoc).
  rewrite (replaceAll_first asterisk_re em_tmpl (eqc "*") p _ [(1, u)] q
             asterisk_starts (plain_no_star _ Hpre)).
  2:{ discriminate. }
  2:{ rewrite <- !app_assoc. destruct Hc' as (c & u' & Eu & Hi).
      assert (Hu : forallb (nec "*") u = true) by exact (plain_no_star _ Ht).
      rewrite Eu in *. cbn [forallb] in Hu. apply andb_true_iff in Hu.
      apply asterisk_exec.
      - exact (holds_rev_none _ p (plain_no_star _ Hpre)).
      - exact Hi.
      - exact (proj2 Hu).
      - exact (holds_none _ q (plain_no_star _ Hpost)). }
  rewrite (replaceFrom_untouched asterisk_re em_tmpl (eqc "*") q
             asterisk_starts (plain_no_star _ Hpost)).
  rewrite asterisk_expand. cbn [cap capture Nat.eqb].
  assert (Hall : plain_text (p ++ (js "<em>" ++ u ++ js "</em>") ++ q) = true).
  { rewrite !plain_text_app, Hpre, Ht, Hpost. reflexivity. }
  destruct (passes_plain _ Hall) as (_ & _ & _ & _ & ->).
  now rewrite <- !app_assoc.
Qed.

Lemma X4_asterisk_rule_witness :
  applyInlineFormatting (js "a " ++ js "*" ++ js "<b> c" ++ js "*" ++ js " d")
  = escapeHtml (js "a ") ++ js "<em>" ++ escapeHtml (js "<b> c") ++
    js "</em>" ++ escapeHtml (js " d").
Proof.
  apply (X4_asterisk_rule (js "a ") (js "<b> c") (js " d")); reflexivity.
Defined.



(** X6.  An asterisk that is followed by white space, or that ends the
    line, opens neither bold nor italic: a line whose asterisks are all of
    this kind, and which holds no bracket, underscore or backtick, comes
    out as its escaped text. *)
Theorem X6_spaced_asterisks (line : jsstring) :
  forallb (fun c => negb (opens_other c)) line = true ->
  no_adjacent star_then_text line = true ->
  applyInlineFormatting line = escapeHtml line.
Proof.
  intros Ho Hs.
  assert (Ho' : forallb (fun c => negb (opens_other c)) (escapeHtml line)
                = true)
    by (apply escapeHtml_class; [reflexivity | exact Ho]).
  apply escapeHtml_no_adjacent in Hs.
  assert (G : forall a,
             (forall c, negb (opens_other c) = true ->
                        negb (eqc a c) = true) ->
             forallb (fun c => negb (eqc a c)) (escapeHtml line) = true).
  { intros a Ha. exact (forallb_weaken _ _ _ Ha Ho'). }
  assert (Hcases : forall c, negb (opens_other c) = true ->
            eqc "[" c = false /\ eqc "_" c = false /\ eqc "`" c = false).
  { intros c Hc. unfold opens_other in Hc.
    apply negb_true_iff in Hc. apply orb_false_iff in Hc.
    destruct Hc as [Hc ?]. apply orb_false_iff in Hc. tauto. }
  unfold applyInlineFormatting, linkPass.
  rewrite (@replaceAll_untouched link_re link_tmpl (eqc "[") _ link_starts)
    by (apply G; intros c Hc; now rewrite (proj1 (Hcases c Hc))).
  unfold boldPass, replaceAll.
  rewrite (replaceFrom_no_adjacent bold_re bold_tmpl star_then_text _
             bold_needs_pair Hs).
  unfold underscorePass.
  rewrite (@replaceAll_untouched underscore_re em_tmpl (eqc "_") _
             underscore_starts)
    by (apply G; intros c Hc; now rewrite (proj1 (proj2 (Hcases c Hc)))).
  unfold asteriskPass, replaceAll.
  rewrite (replaceFrom_no_adjacent asterisk_re em_tmpl star_then_text _
             asterisk_needs_text Hs).
  unfold codePass.
  apply (@replaceAll_untouched code_re code_tmpl (eqc "`") _ code_starts).
  apply G. intros c Hc. now rewrite (proj2 (proj2 (Hcases c Hc))).
Qed.

Lemma X6_spaced_asterisks_witness :
  applyInlineFormatting (js "2 * 3 * 4 = 24 *") =
  escapeHtml (js "2 * 3 * 4 = 24 *").
Proof.
  apply (X6_spaced_asterisks (js "2 * 3 * 4 = 24 *")); reflexivity.
Defined.

(** X7.  A fenced block whose opening fence is followed by lowercase
    letters (or nothing) and a line feed renders as a code block that
    holds the escaped text after that line, whatever this text is: the
    hint line and the two fences are stripped, and backticks inside the
    body stay. *)
Theorem X7_fence_with_hint (l body : jsstring) :
  forallb lower l = true ->
  renderBlock (Some (fenced (l ++ nl ++ body))) =
  Returns (Pre (escapeHtml body)).
Proof.
  intros Hl. unfold renderBlock. rewrite test_fence_start.
  unfold fenced at 1. rewrite startsWith_prefix.
  now rewrite (strip_hint l body Hl).
Qed.

Lemma X7_fence_with_hint_witness :
  renderBlock (Some (fenced (js "js" ++ nl ++ js "let x = 1 < 2;" ++ nl))) =
  Returns (Pre (escapeHtml (js "let x = 1 < 2;" ++ nl))).
Proof.
  apply (X7_fence_with_hint (js "js") (js "let x = 1 < 2;" ++ nl)).
  reflexivity.
Defined.

(** X8.  A fenced block whose text after the opening fence does not start
    with lowercase letters and a line feed (a hint with an uppercase
    letter, a digit, a sign or a space, a carriage return before the line
    feed, or no line feed at all) keeps its opening fence and that text in
    the code block; only the closing fence is stripped. *)
Theorem X8_fence_without_hint (inner : jsstring) :
  hint_line inner = false ->
  renderBlock (Some (fenced inner)) =
  Returns (Pre (escapeHtml (js "```" ++ inner))).
Proof.
  intros Hh. unfold renderBlock. rewrite test_fence_start.
  unfold fenced at 1. rewrite startsWith_prefix.
  now rewrite (strip_no_hint inner Hh).
Qed.

Lemma X8_fence_without_hint_witness :
  renderBlock (Some (fenced (js "c++" ++ nl ++ js "int x;" ++ nl))) =
  Returns (Pre (escapeHtml (js "```" ++ js "c++" ++ nl ++ js "int x;" ++ nl))).
Proof.
  apply (X8_fence_without_hint (js "c++" ++ nl ++ js "int x;" ++ nl)).
  reflexivity.
Defined.

(** X9.  The renderer on a text, a fenced block with a hint line, and a
    text: where no three backticks in a row occur before the block, in
    its body up to the closing fence, or after it, the result is the text
    block of the first text, the code block with the escaped body, and
    the text block of the second text. *)
Theorem X9_fenced_block_between_text (pre l body post : jsstring) :
  has_fence (pre ++ js "``") = false ->
  forallb lower l = true ->
  has_fence (body ++ js "``") = false ->
  has_fence post = false ->
  renderContent (pre ++ fenced (l ++ nl ++ body) ++ post) =
  Returns (Some [Div (renderText pre); Pre (escapeHtml body);
                 Div (renderText post)]).
Proof.
  intros Hpre Hl Hbody Hpost.
  assert (Hin : has_fence ((l ++ nl ++ body) ++ js "``") = false).
  { rewrite <- !app_assoc. rewrite has_fence_units.
    - rewrite has_fence_units; [exact Hbody | reflexivity].
    - revert Hl. apply forallb_weaken. intros c Hc. unfold lower in Hc.
      unfold nec, eqc, code.
      destruct (N.eqb_spec (N_of_ascii "`") c) as [<-|]; [discriminate|].
      reflexivity. }
  assert (Hp : JsString.startsWith pre (js "```") = false).
  { destruct (JsString.startsWith pre (js "```")) eqn:E; [|reflexivity].
    apply (startsWith_app _ _ (js "``")) in E.
    exfalso. exact (eq_true_false_abs _ (has_fence_at [] _ E) Hpre). }
  assert (Hq : JsString.startsWith post (js "```") = false).
  { destruct (JsString.startsWith post (js "```")) eqn:E; [|reflexivity].
    exfalso. exact (eq_true_false_abs _ (has_fence_at [] _ E) Hpost). }
  unfold renderContent.
  destruct (pre ++ fenced (l ++ nl ++ body) ++ post) as [|c0 s0] eqn:E0;
    [destruct pre; discriminate|]. rewrite <- E0. clear E0 c0 s0.
  rewrite (split_fenced pre _ post Hpre Hin Hpost).
  cbn [mapBlocks]. unfold renderBlock. rewrite !test_fence_start, Hp, Hq.
  unfold fenced at 1. rewrite startsWith_prefix.
  now rewrite (strip_hint l body Hl).
Qed.

Lemma X9_fenced_block_between_text_witness :
  renderContent
    ((js "Intro" ++ nl) ++ fenced (js "js" ++ nl ++ (js "a`b" ++ nl)) ++
     (nl ++ js "Outro")) =
  Returns (Some [Div (renderText (js "Intro" ++ nl));
                 Pre (escapeHtml (js "a`b" ++ nl));
                 Div (renderText (nl ++ js "Outro"))]).
Proof.
  apply (X9_fenced_block_between_text (js "Intro" ++ nl) (js "js")
           (js "a`b" ++ nl) (nl ++ js "Outro")); reflexivity.
Defined.

(** X10.  The elements of a text block: no list is empty, no list comes
    right after another list, and the block does not start with a line
    break. *)
Theorem X10_block_shape (block : jsstring) :
  lists_ok false (renderText block) = true /\
  starts_with_break (renderText block) = false.
Proof.
  unfold renderText.
  destruct (lines_shape (JsString.splitOn 10%N block) (LS [] []))
    as (H1 & H2 & H3); try reflexivity.
  destruct (flush_shape _ H1 H2 H3) as (F1 & F2 & _). now split.
Qed.

(** X11.  A block of white space only, the empty block included, renders
    to no element: its [div] is empty. *)
Theorem X11_blank_block (block : jsstring) :
  forallb JsString.isSpace block = true -> renderText block = [].
Proof.
  intros H. unfold renderText.
  pose proof (splitOn_spaces block H) as Hl.
  assert (E : fold_left processLine (JsString.splitOn 10%N block) (LS [] [])
              = LS [] []).
  { induction Hl as [|line lines Hline _ IH]; [reflexivity|].
    cbn [fold_left]. now rewrite (processLine_space line Hline). }
  now rewrite E.
Qed.

Lemma X11_blank_block_witness : renderText (js "  " ++ nl ++ js " ") = [].
Proof. apply (X11_blank_block (js "  " ++ nl ++ js " ")). reflexivity. Defined.

(** X12.  The output box shows one of its four panels, or two (the
    loading panel and the error panel) in a state that is loading and
    holds a non-empty error; after every sequence of generate, edit and
    settle events it shows exactly one. *)
Theorem X12_one_panel :
  (forall st : AppState,
      length (panels st) =
      if isLoading st && errorShown (error st) then 2 else 1) /\
  (forall events : list event,
      length (panels (ui (run_events events))) = 1).
Proof.
  split; [exact panels_count|]. intros events. rewrite panels_count.
  destruct (run_shape events) as [Hl _].
  destruct (isLoading (ui (run_events events))); [|reflexivity].
  destruct (Hl eq_refl) as [-> _]. reflexivity.
Qed.

(** X13.  After every sequence of events: while a request is in flight
    the page holds neither a post nor an error, and it never holds an
    error together with a post. *)
Theorem X13_no_post_with_error (events : list event) :
  settled_shape (ui (run_events events)).
Proof. apply run_shape. Qed.

(** X14.  Where the output box shows the post panel, its content is the
    generated post, it is not the empty string, and the renderer returns
    a non-empty list of nodes for it: the renderer's [null] result is not
    reached from the page. *)
Theorem X14_post_panel_renders (st : AppState) (content : jsstring) :
  In (Post content) (panels st) ->
  content = generatedPost st /\ content <> [] /\
  exists nodes, renderContent content = Returns (Some nodes) /\ nodes <> [].
Proof.
  intros Hin.
  assert (H : content = generatedPost st /\ content <> []).
  { destruct st as [p g l err]. unfold panels in Hin.
    cbn [isLoading error generatedPost] in Hin.
    destruct l, err as [[|c m]|], g as [|d g]; simpl in Hin;
      repeat match goal with
             | H : _ \/ _ |- _ => destruct H
             | H : False |- _ => destruct H
             | H : _ = Post _ |- _ => inversion H; subst; clear H
             end;
      (split; [reflexivity | discriminate]). }
  destruct H as [-> Hne]. split; [reflexivity|]. split; [exact Hne|].
  destruct (generatedPost st) as [|c s] eqn:E; [congruence|].
  destruct (split_pieces (c :: s)) as (pieces & Hs & _ & Hp).
  destruct (mapBlocks_returns pieces) as (nodes & Hm & Hlen).
  exists nodes. unfold renderContent. rewrite Hs, Hm.
  split; [reflexivity|]. intros ->. destruct pieces; [congruence|].
  discriminate.
Qed.

Lemma X14_post_panel_renders_witness :
  js "hi" = generatedPost (mkApp [] (js "hi") false None) /\
  js "hi" <> [] /\
  exists nodes,
    renderContent (js "hi") = Returns (Some nodes) /\ nodes <> [].
Proof.
  apply (X14_post_panel_renders (mkApp [] (js "hi") false None) (js "hi")).
  simpl. left. reflexivity.
Defined.

(** X15.  The guard of the generate handler is the [disabled] condition
    of the button: where the button is disabled the handler changes
    nothing and makes no request; where it is enabled the handler clears
    the post and the error, sets the loading flag, and requests a post
    for the prompt as typed, not trimmed. *)
Theorem X15_guard_is_button (st : AppState) :
  (buttonDisabled st = true -> handleGeneratePost st = (st, None)) /\
  (buttonDisabled st = false ->
   handleGeneratePost st =
   (mkApp (prompt st) [] true None, Some (prompt st))).
Proof.
  unfold buttonDisabled, handleGeneratePost. rewrite (orb_comm (blank _)).
  split; intros ->; reflexivity.
Qed.

(** X16.  After the mount and any number of clicks on the toggle, the
    root element has the [dark] class exactly when the theme is [dark],
    and the storage holds [dark] or [light] accordingly. *)
Theorem X16_theme_in_sync (prefersDark : bool) (e : Env) (n : nat) :
  in_sync (clicks n (mount prefersDark e)).
Proof. apply clicks_in_sync, mount_in_sync. Qed.

(** X17.  After at least one click on the toggle a reload, whatever the
    preference of the system is then, brings back the same theme, class
    and stored value. *)
Theorem X17_theme_survives_reload
  (prefersDark prefersDark' : bool) (e : Env) (n : nat) :
  1 <= n ->
  mount prefersDark' (env (clicks n (mount prefersDark e))) =
  clicks n (mount prefersDark e).
Proof.
  intros Hn. destruct n as [|n]; [lia|]. cbn [clicks].
  apply reload_same.
  - apply clicks_in_sync, sync_in_sync.
  - apply clicks_valid, toggle_valid.
Qed.

Lemma X17_theme_survives_reload_witness :
  mount false (env (clicks 1 (mount true (mkEnv None false)))) =
  clicks 1 (mount true (mkEnv None false)).
Proof.
  apply (X17_theme_survives_reload true false (mkEnv None false) 1). lia.
Defined.

(** X18.  The toggle always yields one of the two themes and never the
    theme it was given; on the two themes it is an involution, and on any
    other value it yields [light]. *)
Theorem X18_toggle (t : jsstring) :
  valid (toggleTheme t) = true /\
  toggleTheme t <> t /\
  (valid t = true -> toggleTheme (toggleTheme t) = t) /\
  (valid t = false -> toggleTheme t = js "light").
Proof.
  unfold valid, toggleTheme.
  destruct (eqs t (js "light")) eqn:El.
  - apply eqs_eq in El. subst t. repeat split; discriminate.
  - repeat split.
    + intros E. rewrite <- E in El. discriminate.
    + cbn [orb]. intros Ed. apply eqs_eq in Ed. subst t. reflexivity.
Qed.

(** X19.  A stored value that is a non-empty string other than [light]
    and [dark] becomes the theme as it is: the page is shown light, the
    storage is overwritten with [light], and the first click on the
    toggle sets the theme [light] and changes nothing outside the
    component. *)
Theorem X19_unknown_stored_theme
  (prefersDark : bool) (t : jsstring) (d : bool) :
  t <> [] -> valid t = false ->
  let p := mount prefersDark (mkEnv (Some t) d) in
  theme p = t /\
  env p = mkEnv (Some (js "light")) false /\
  click p = mkPage (js "light") (env p).
Proof.
  intros Hne Hv. unfold valid in Hv. apply orb_false_iff in Hv.
  destruct Hv as [Hl Hd]. destruct t as [|c t]; [congruence|].
  cbv zeta. unfold mount, click. cbn [stored initialTheme]. cbv zeta.
  rewrite Hl. cbn [theme env]. unfold syncTheme, toggleTheme.
  rewrite Hd, Hl. repeat split.
Qed.

Lemma X19_unknown_stored_theme_witness :
  let p := mount true (mkEnv (Some (js "blue")) true) in
  theme p = js "blue" /\
  env p = mkEnv (Some (js "light")) false /\
  click p = mkPage (js "light") (env p).
Proof.
  apply (X19_unknown_stored_theme true (js "blue") true);
    [discriminate | reflexivity].
Defined.

(** X20.  The copy button: whenever the label reads copied, a timer that
    resets it is pending; a refused clipboard write changes nothing; and
    the timer of an earlier copy resets the label of a later one, whose
    own timer is still pending. *)
Theorem X20_copied_label :
  (forall events : list copyEvent,
      isCopied (copyRun events) = true -> timers (copyRun events) <> []) /\
  (forall st : CopyState, copyStep st Refused = st) /\
  (forall t1 t2 : nat,
      copyRun [Written t1; Written t2; Fired] = mkCopy false [t2 + 2000]).
Proof.
  split; [|split].
  - intros events. unfold copyRun. apply copyRun_pending. discriminate.
  - reflexivity.
  - reflexivity.
Qed.

(** X21.  With the text service answering the requests, the only error
    the page ever holds is the fixed message of the service: the message
    of what was thrown is dropped, and the fallback message of the page's
    own handler is never shown. *)
Theorem X21_service_error (events : list event) :
  Forall served events ->
  error (ui (run_events events)) = None \/
  error (ui (run_events events)) = Some failureMessage.
Proof.
  intros H. unfold run_events. apply served_error; [exact H|]. now left.
Qed.

Lemma X21_service_error_witness :
  error (ui (run_events
    [Edit (js "cats"); Generate; Settle (generateBlogPost ApiThrows)])) = None
  \/
  error (ui (run_events
    [Edit (js "cats"); Generate; Settle (generateBlogPost ApiThrows)])) =
  Some failureMessage.
Proof.
  apply (X21_service_error
           [Edit (js "cats"); Generate; Settle (generateBlogPost ApiThrows)]).
  apply Forall_cons; [exact I|]. apply Forall_cons; [exact I|].
  apply Forall_cons; [exists ApiThrows; reflexivity|]. apply Forall_nil.
Defined.

End Extras.
